(** * Data Redundancy Removal System: a shallow embedding and its properties

    The program ([Data_Redundancy_Removal_System.py]) is a read-eval-print
    loop over one SQLite table.  This development embeds

    - the Python string operations the program calls ([str.split],
      [str.join], [str.lower], [str.strip]) and [normalize];
    - the table [data] with its PRIMARY KEY AUTOINCREMENT and UNIQUE
      constraints, and the SQL statements the program issues;
    - [init_db], [classify], [insert_unique], [show_data] and [main], in a
      state-and-exception monad over the database and standard output.

    Characters are the 256 code points U+0000..U+00FF (type [ascii]); on
    them [isspace] and [lower_char] are exactly Python's [str.isspace] and
    [str.lower].  Storage-level failures (I/O errors, a full disk, rowid
    exhaustion) are outside the model. *)

From Stdlib Require Import ZArith Ascii String.
From stdpp Require Import base tactics option list strings gmap sorting.

Local Open Scope Z_scope.

(** ** Python strings *)

Module PyStr.

(** A Python [str] is a sequence of code points. *)
Abbreviation str := (list ascii).

(** A literal. *)
Definition lit (s : string) : str := list_ascii_of_string s.

(** [str.isspace] on one code point: U+0009..U+000D, U+001C..U+0020,
    U+0085 and U+00A0. *)
Definition isspace (c : ascii) : bool :=
  let n := N_of_ascii c in
  ((9 <=? n) && (n <=? 13) || (28 <=? n) && (n <=? 32)
   || (n =? 133) || (n =? 160))%N.

(** [str.lower] on one code point: A..Z and the Latin-1 capitals
    U+00C0..U+00DE except the multiplication sign U+00D7 move up by 32. *)
Definition lower_char (c : ascii) : ascii :=
  let n := N_of_ascii c in
  if ((65 <=? n) && (n <=? 90)
      || (192 <=? n) && (n <=? 222) && negb (n =? 215))%N
  then ascii_of_N (n + 32) else c.

(** [s.lower()] *)
Definition lower (s : str) : str := map lower_char s.

(** Does [s] begin with a character that is not whitespace? *)
Definition starts_word (s : str) : bool :=
  match s with
  | c :: _ => negb (isspace c)
  | [] => false
  end.

(** Put [c] in front of the first word of [ws]. *)
Definition glue (c : ascii) (ws : list str) : list str :=
  match ws with
  | w :: ws' => (c :: w) :: ws'
  | [] => [[c]]
  end.

(** [s.split()]: the maximal runs of non-whitespace characters of [s], in
    order.  A whitespace character contributes nothing; any other character
    extends the word that starts right after it, or is a word of its own. *)
Fixpoint split (s : str) : list str :=
  match s with
  | [] => []
  | c :: s' =>
      if isspace c then split s'
      else if starts_word s' then glue c (split s')
      else [c] :: split s'
  end.

(** [sep.join(ws)] *)
Fixpoint join (sep : str) (ws : list str) : str :=
  match ws with
  | [] => []
  | w :: ws' =>
      match ws' with
      | [] => w
      | _ :: _ => w ++ sep ++ join sep ws'
      end
  end.

(** [s.lstrip(chars)], [s.rstrip(chars)] and [s.strip(chars)], the set of
    characters given by a predicate. *)
Fixpoint lstrip_by (p : ascii → bool) (s : str) : str :=
  match s with
  | [] => []
  | c :: s' => if p c then lstrip_by p s' else s
  end.

Fixpoint rstrip_by (p : ascii → bool) (s : str) : str :=
  match s with
  | [] => []
  | c :: s' =>
      match rstrip_by p s' with
      | [] => if p c then [] else [c]
      | r => c :: r
      end
  end.

Definition strip_by (p : ascii → bool) (s : str) : str :=
  rstrip_by p (lstrip_by p s).

(** [s.strip()] removes whitespace at both ends. *)
Definition strip (s : str) : str := strip_by isspace s.

(** Python's [==] on two strings. *)
Definition str_eqb (a b : str) : bool := bool_decide (a = b).

End PyStr.

Export PyStr.

(** ** The normalizer *)

(** [def normalize(value): return " ".join(value.split()).lower()] *)
Definition normalize (value : str) : str :=
  lower (join (lit " ") (split value)).

(** The normalizer as the specification words it: whitespace runs
    collapsed to one space, spaces stripped at both ends, all lowercased. *)
Module NormalizeSpec.





End NormalizeSpec.

(** ** The store

    The table [data] is keyed by its INTEGER PRIMARY KEY, so the rows are a
    finite map from [id] to the other three columns.  [seq] is the table's
    entry in [sqlite_sequence] (the largest rowid ever handed out), which
    AUTOINCREMENT consults; DROP TABLE discards it with the rows. *)

Record Row := mkRow {
  value : str;
  value_norm : str;
  created_at : str
}.

Record Table := mkTable {
  rows : gmap Z Row;
  seq : Z
}.

(** The database file [cloud_data.db]: the table is there or not. *)
Abbreviation Database := (option Table).

Definition empty_table : Table := mkTable ∅ 0.

Definition row_count (t : Table) : nat := size (rows t).

Definition max_rowid (t : Table) : Z :=
  foldr Z.max 0 (map fst (map_to_list (rows t))).

(** The rowid AUTOINCREMENT gives to the next row. *)
Definition next_rowid (t : Table) : Z :=
  Z.max (max_rowid t) (seq t) + 1.

(** [SELECT ... FROM data WHERE value_norm = ?] *)
Definition select_by_norm (t : Table) (key : str) : list (Z * Row) :=
  filter (λ kr, value_norm kr.2 = key) (map_to_list (rows t)).

Definition has_norm (t : Table) (key : str) : bool :=
  match select_by_norm t key with
  | [] => false
  | _ :: _ => true
  end.

(** [SELECT id, value, created_at FROM data ORDER BY id] *)
Definition id_le (a b : Z * Row) : Prop := a.1 ≤ b.1.

Global Instance id_le_dec : RelDecision id_le.
Proof. intros a b. unfold id_le. apply _. Defined.

Definition select_all (t : Table) : list (Z * str * str) :=
  map (λ kr, (kr.1, value kr.2, created_at kr.2))
      (merge_sort id_le (map_to_list (rows t))).

(** Python exceptions the program can meet. *)
Inductive exn :=
| OperationalError   (* sqlite3: no such table *)
| IntegrityError     (* sqlite3: UNIQUE constraint failed *)
| AttributeError
| EOFError.

Global Instance exn_eq_dec : EqDecision exn.
Proof. solve_decision. Defined.

Inductive result (A : Type) :=
| Ok (a : A)
| Raise (e : exn).
Arguments Ok {A} a.
Arguments Raise {A} e.

(** [INSERT INTO data (value, value_norm, created_at) VALUES (?, ?, ?)]:
    the UNIQUE constraint on [value_norm] is checked, then the row gets the
    next rowid. *)
Definition table_insert (t : Table) (v v_norm ts : str) : result Table :=
  if has_norm t v_norm then Raise IntegrityError
  else
    let i := next_rowid t in
    Ok (mkTable (<[i := mkRow v v_norm ts]> (rows t)) i).

(** The statements that change the database, as any connection may run
    them. *)
Inductive Stmt :=
| SqlDropIfExists
| SqlCreateIfNotExists
| SqlInsert (v v_norm ts : str).

Definition run_stmt (d : Database) (q : Stmt) : result Database :=
  match q with
  | SqlDropIfExists => Ok None
  | SqlCreateIfNotExists =>
      match d with
      | None => Ok (Some empty_table)
      | Some t => Ok (Some t)
      end
  | SqlInsert v v_norm ts =>
      match d with
      | None => Raise OperationalError
      | Some t =>
          match table_insert t v v_norm ts with
          | Ok t' => Ok (Some t')
          | Raise e => Raise e
          end
      end
  end.

(** Statements committed by other connections; a statement that fails
    there leaves the database as it was. *)
Definition run_others (d : Database) (qs : list Stmt) : Database :=
  foldl (λ d q, match run_stmt d q with Ok d' => d' | Raise _ => d end) d qs.

(** ** Effects: the database, standard output, exceptions *)

(** What [print] (and the prompt of [input]) writes; the wording of each
    line is in the source. *)
Inductive Out :=
| OutBanner                              (* Data Redundancy Removal System *)
| OutUsage                               (* Type a value to insert, or ... *)
| OutPrompt                              (* Enter data: *)
| OutFalsePositive                       (* False positive ignored ... *)
| OutRedundant (raw_value : option str)  (* Redundant entry ignored: ... *)
| OutInserted (v : str)                  (* Inserted: ... *)
| OutEmpty                               (* Database is empty. *)
| OutEntries                             (* Current Database Entries: *)
| OutRow (r : Z * str * str)             (* (id, 'value', created_at) *)
| OutResetDone.                          (* Database reset. ... *)

Record World := mkWorld {
  db : Database;
  stdout : list Out
}.

Definition M (A : Type) : Type := World → result A * World.

Module Monad.

Definition ret {A} (a : A) : M A := λ w, (Ok a, w).

Definition bind {A B} (m : M A) (k : A → M B) : M B :=
  λ w, match m w with
       | (Ok a, w') => k a w'
       | (Raise e, w') => (Raise e, w')
       end.

Definition raise {A} (e : exn) : M A := λ w, (Raise e, w).

(** [try: body  except e: handler] *)
Definition try_except {A} (body : M A) (e : exn) (handler : M A) : M A :=
  λ w, match body w with
       | (Raise e', w') =>
           if decide (e' = e) then handler w' else (Raise e', w')
       | r => r
       end.

Definition print (o : Out) : M unit :=
  λ w, (Ok tt, mkWorld (db w) (stdout w ++ [o])).

(** One statement on the program's own connection. *)
Definition execute (q : Stmt) : M unit :=
  λ w, match run_stmt (db w) q with
       | Ok d => (Ok tt, mkWorld d (stdout w))
       | Raise e => (Raise e, w)
       end.

(** A query: reads the table, fails when the table is missing. *)
Definition query {A} (f : Table → A) : M A :=
  λ w, match db w with
       | Some t => (Ok (f t), w)
       | None => (Raise OperationalError, w)
       end.

(** [conn.commit()]: the connection already sees its own writes. *)
Definition commit : M unit := ret tt.

(** Other connections commit [qs] at this point. *)
Definition meanwhile (qs : list Stmt) : M unit :=
  λ w, (Ok tt, mkWorld (run_others (db w) qs) (stdout w)).

Fixpoint for_each {A} (l : list A) (body : A → M unit) : M unit :=
  match l with
  | [] => ret tt
  | x :: l' => bind (body x) (λ _, for_each l' body)
  end.

End Monad.

Import Monad.

Global Instance M_bind : MBind M := λ A B k m, bind m k.

Notation "'do' x <- m ; k" := (bind m (λ x, k))
  (at level 10, x name, m at level 100, k at level 200).

(** ** The program *)

(** [connect()] opens the database file and sets two PRAGMAs;
    [conn.close()] releases it.  Neither changes the table or prints. *)
Definition connect : M unit := ret tt.

Definition close : M unit := ret tt.

(** [init_db(conn, reset)] *)
Definition init_db (reset : bool) : M unit :=
  (if reset then execute SqlDropIfExists else ret tt) ;;
  execute SqlCreateIfNotExists ;;
  commit.

Inductive Class :=
| FalsePositive
| Redundant
| Unique.

(** [classify(conn, raw_value)] *)
Definition classify (raw_value : option str) : M Class :=
  match raw_value with
  | None => ret FalsePositive
  | Some raw =>
      let v := strip raw in
      if str_eqb v [] then ret FalsePositive
      else
        let v_norm := normalize v in
        do exists_ <- query (λ t, has_norm t v_norm);
        ret (if exists_ then Redundant else Unique)
  end.

(** [insert_unique(conn, raw_value)].  [now] is what
    [datetime.utcnow().strftime(...)] returns; [others] are the
    statements other connections commit between the existence check of
    [classify] and the INSERT. *)
Definition insert_unique (others : list Stmt) (now : str)
    (raw_value : option str) : M unit :=
  do cls <- classify raw_value;
  match cls with
  | FalsePositive => print OutFalsePositive
  | Redundant => print (OutRedundant raw_value)
  | Unique =>
      match raw_value with
      | None => raise AttributeError
      | Some raw =>
          let v := strip raw in
          let v_norm := normalize v in
          meanwhile others ;;
          try_except
            (execute (SqlInsert v v_norm now) ;;
             commit ;;
             print (OutInserted v))
            IntegrityError
            (print (OutRedundant raw_value))
      end
  end.

(** [show_data(conn)] *)
Definition show_data : M unit :=
  do rs <- query select_all;
  match rs with
  | [] => print OutEmpty
  | _ :: _ => print OutEntries ;; for_each rs (λ r, print (OutRow r))
  end.

(** One line of standard input, with the clock reading of the iteration
    that consumes it. *)
Record Input := mkInput {
  line : str;
  utc : str
}.

(** The [while True] loop of [main] over the lines standard input still
    holds; [input] raises [EOFError] when there is none left. *)
Fixpoint repl (inputs : list Input) : M unit :=
  match inputs with
  | [] => print OutPrompt ;; raise EOFError
  | i :: rest =>
      print OutPrompt ;;
      let user_input := strip (line i) in
      if str_eqb (lower user_input) (lit "exit") then ret tt
      else if str_eqb (lower user_input) (lit "show") then
        show_data ;; repl rest
      else if str_eqb (lower user_input) (lit "reset") then
        init_db true ;; print OutResetDone ;; show_data ;; repl rest
      else
        insert_unique [] (utc i) (Some user_input) ;;
        show_data ;; repl rest
  end.

(** [main()], [reset] being the [--reset] flag. *)
Definition main (reset : bool) (inputs : list Input) : M unit :=
  connect ;;
  init_db reset ;;
  print OutBanner ;;
  print OutUsage ;;
  repl inputs ;;
  close.

(** The exit status of the interpreter: 0 when [main] returns, 1 when an
    exception escapes. *)
Definition exit_code {A} (r : result A) : Z :=
  match r with
  | Ok _ => 0
  | Raise _ => 1
  end.

(** The database file before the first run. *)
Definition fresh : World := mkWorld None [].

(** * What the statements speak of *)

(** ** Strings *)

(** A word: a non-empty string without whitespace. *)
Definition is_word (w : str) : Prop :=
  w ≠ [] ∧ Forall (λ c, isspace c = false) w.

(** The word at the start of [s], and what follows that word: the inner
    loop of the textbook whitespace split. *)
Fixpoint word_at (s : str) : str :=
  match s with
  | [] => []
  | c :: s' => if isspace c then [] else c :: word_at s'
  end.

Fixpoint after_word (s : str) : str :=
  match s with
  | [] => []
  | c :: s' => if isspace c then s else after_word s'
  end.

(** The first, or last, character of [s] satisfies [p]. *)
Definition starts_with (p : ascii → bool) (s : str) : bool :=
  match s with
  | c :: _ => p c
  | [] => false
  end.

Definition ends_with (p : ascii → bool) (s : str) : bool :=
  match last s with
  | Some c => p c
  | None => false
  end.

(** ** The store *)

(** Some row carries the key. *)
Definition stored (t : Table) (key : str) : Prop :=
  ∃ i r, rows t !! i = Some r ∧ value_norm r = key.

(** The UNIQUE constraint on [value_norm]. *)
Definition unique_norm (t : Table) : Prop :=
  ∀ i j r1 r2,
    rows t !! i = Some r1 → rows t !! j = Some r2 →
    value_norm r1 = value_norm r2 → i = j.

Definition db_unique (d : Database) : Prop :=
  match d with
  | Some t => unique_norm t
  | None => True
  end.

(** The relation between the two text columns of an entry. *)
Definition row_ok (r : Row) : Prop :=
  value_norm r = normalize (value r)
  ∧ starts_with isspace (value r) = false
  ∧ ends_with isspace (value r) = false.

Definition rows_ok (d : Database) : Prop :=
  match d with
  | Some t => ∀ i r, rows t !! i = Some r → row_ok r
  | None => True
  end.

(** ** The operations *)

(** The input is absent or empty after trimming. *)
Definition blank (raw_value : option str) : Prop :=
  match raw_value with
  | None => True
  | Some raw => strip raw = []
  end.

(** An entry with the input's normalized key is in the table. *)
Definition key_stored (t : Table) (raw_value : option str) : Prop :=
  match raw_value with
  | None => False
  | Some raw => stored t (normalize raw)
  end.

(** The world after printing [o]. *)
Definition printed (w : World) (o : Out) : World :=
  mkWorld (db w) (stdout w ++ [o]).

(** What [show_data] prints for table [t]. *)
Definition listing (t : Table) : list Out :=
  match select_all t with
  | [] => [OutEmpty]
  | rs => OutEntries :: map OutRow rs
  end.

(** The [id] column of a result row. *)
Definition row_id (r : Z * str * str) : Z := r.1.1.

(** ** Reachable states of the store *)

(** The INSERT statements this program issues: the stripped input with
    its normalized key. *)
Definition program_stmt (q : Stmt) : Prop :=
  match q with
  | SqlInsert v key _ => ∃ raw, v = strip raw ∧ key = normalize (strip raw)
  | _ => True
  end.

(** The states of the database file under runs of this program: a file
    that does not hold the table yet, then [init_db] (at start-up, or
    for the [reset] command) and [insert_unique], other connections
    running the same program in between. *)
Inductive reachable : Database → Prop :=
| reach_fresh : reachable None
| reach_init reset w :
    reachable (db w) → reachable (db (init_db reset w).2)
| reach_insert others now raw_value w :
    Forall program_stmt others → reachable (db w) →
    reachable (db (insert_unique others now raw_value w).2).

(** ** The session loop *)

(** The keyword match of the loop: the line stripped and lowercased. *)
Definition command (i : Input) : str := lower (strip (line i)).

Definition is_exit (i : Input) : bool := str_eqb (command i) (lit "exit").

(** ** Worked inputs *)

Definition ts1 : str := lit "2024-05-01 10:00:00".
Definition ts2 : str := lit "2024-05-01 10:00:07".

(** The table after a first run in which "Hello World" was entered. *)
Definition w_init : World := (init_db false fresh).2.
Definition w_hello : World :=
  (insert_unique [] ts1 (Some (lit "Hello World")) w_init).2.
Definition t_hello : Table := default empty_table (db w_hello).

(** Another connection stores the same key first. *)
Definition rival : list Stmt :=
  [SqlInsert (lit "hello world") (lit "hello world") ts1].
Definition t_rival : Table :=
  default empty_table (run_others (db w_init) rival).

(** A session that ends at end of input, and one that ends with [exit]. *)
Definition session_eof : list Input :=
  [mkInput (lit "Hello World") ts1].
Definition session_exit : list Input :=
  [mkInput (lit "Hello World") ts1; mkInput (lit "  EXIT ") ts2].

(** ** Further vocabulary *)

(** The ids of a table nothing was deleted from: 1, 2, ..., as many as
    there are rows, [seq] being the last one handed out. *)
Definition ids_dense (d : Database) : Prop :=
  match d with
  | Some t =>
      seq t = Z.of_nat (row_count t)
      ∧ ∀ i, is_Some (rows t !! i) ↔ 1 ≤ i ≤ Z.of_nat (row_count t)
  | None => True
  end.

(** The command keywords of the session loop. *)
Definition keywords : list str := [lit "exit"; lit "show"; lit "reset"].

(** Every stored value is data: not empty, and not a command keyword in
    whatever letter case. *)
Definition only_data (d : Database) : Prop :=
  match d with
  | Some t =>
      ∀ i r, rows t !! i = Some r →
             value r ≠ [] ∧ lower (value r) ∉ keywords
  | None => True
  end.

(** The line [insert_unique] prints for an input of class [cls]. *)
Definition notice (cls : Class) (raw_value : option str) : Out :=
  match cls with
  | FalsePositive => OutFalsePositive
  | Redundant => OutRedundant raw_value
  | Unique => OutInserted (strip (default [] raw_value))
  end.

(** Every whitespace character of [s] is a space that stands right before
    a character that is not whitespace. *)
Fixpoint single_spaced (s : str) : bool :=
  match s with
  | [] => true
  | c :: s' =>
      (if isspace c then bool_decide (c = " "%char) && starts_word s'
       else true)
      && single_spaced s'
  end.

(** The shape of a key: lowercase words separated by single spaces. *)
Definition canonical (s : str) : bool :=
  negb (starts_with isspace s) && single_spaced s
  && bool_decide (lower s = s).

(** The keys a session leaves in the table, the table holding [keys]
    when the loop starts: each data line adds its key, [reset] forgets
    them all, nothing is read past [exit]. *)
Fixpoint keys_after (inputs : list Input) (keys : list str) : list str :=
  match inputs with
  | [] => keys
  | i :: rest =>
      if is_exit i then keys
      else if str_eqb (command i) (lit "show") then keys_after rest keys
      else if str_eqb (command i) (lit "reset") then keys_after rest []
      else if str_eqb (strip (line i)) [] then keys_after rest keys
      else keys_after rest (normalize (line i) :: keys)
  end.

(** The key is stored in the database. *)
Definition holds_key (d : Database) (key : str) : Prop :=
  match d with
  | Some t => stored t key
  | None => False
  end.

(** * Properties *)

(** ** Characters *)

Section Chars.

Ltac by_cases c := destruct c as [[] [] [] [] [] [] [] []]; reflexivity.

Lemma isspace_lower_char c : isspace (lower_char c) = isspace c.
Proof. by_cases c. Qed.

Lemma lower_char_idem c : lower_char (lower_char c) = lower_char c.
Proof. by_cases c. Qed.

Lemma lower_char_space c : isspace c = true → lower_char c = c.
Proof. destruct c as [[] [] [] [] [] [] [] []]; (reflexivity || discriminate). Qed.


End Chars.

(** ** Splitting and joining *)

Section Split.

Implicit Types (c : ascii) (s w : str) (ws : list str).

Lemma split_space c s : isspace c = true → split (c :: s) = split s.
Proof. intros H. simpl. by rewrite H. Qed.

Lemma split_nonspace c s :
  isspace c = false →
  split (c :: s) = if starts_word s then glue c (split s) else [c] :: split s.
Proof. intros H. simpl. by rewrite H. Qed.

Lemma starts_word_split s :
  starts_word s = true → ∃ w ws, split s = w :: ws.
Proof.
  destruct s as [|c s]; [done|]. simpl. intros H%negb_true_iff. rewrite H.
  destruct (starts_word s); [|by eauto].
  destruct (split s); simpl; eauto.
Qed.

Lemma split_words s : Forall is_word (split s).
Proof.
  induction s as [|c s IH]; [constructor|]. simpl.
  destruct (isspace c) eqn:Hc; [done|].
  destruct (starts_word s) eqn:Hs.
  - destruct (split s) as [|w ws]; simpl.
    + repeat constructor; [done|]. by repeat constructor.
    + inversion_clear IH as [|? ? [Hw1 Hw2] Hws].
      constructor; [|done]. split; [done|]. by constructor.
  - constructor; [|done]. split; [done|]. by repeat constructor.
Qed.

Lemma split_word_app w s :
  is_word w → starts_word s = false → split (w ++ s) = w :: split s.
Proof.
  intros [Hne Hw] Hs. induction w as [|c w IH]; [done|].
  inversion_clear Hw as [|? ? Hc Hw']. simpl. rewrite Hc.
  destruct w as [|c' w].
  - simpl. by rewrite Hs.
  - rewrite IH; [|done..].
    inversion_clear Hw' as [|? ? Hc' _]. simpl. by rewrite Hc'.
Qed.

Lemma split_word w : is_word w → split w = [w].
Proof.
  intros Hw. rewrite <-(app_nil_r w) at 1. by rewrite split_word_app.
Qed.

Lemma split_join ws :
  Forall is_word ws → split (join (lit " ") ws) = ws.
Proof.
  induction 1 as [|w ws Hw Hws IH]; [done|].
  destruct ws as [|w' ws].
  - simpl. by apply split_word.
  - change (join (lit " ") (w :: w' :: ws))
      with (w ++ " "%char :: join (lit " ") (w' :: ws)).
    rewrite split_word_app; [|done..].
    rewrite split_space; [|done]. by rewrite IH.
Qed.

(** [split] does what the scanning loop does: skip whitespace, cut the
    word that starts there, go on after it. *)
Lemma split_scan s :
  split s =
  match lstrip_by isspace s with
  | [] => []
  | c :: r => word_at (c :: r) :: split (after_word (c :: r))
  end.
Proof.
  induction s as [|c s IH]; [done|].
  change (lstrip_by isspace (c :: s))
    with (if isspace c then lstrip_by isspace s else c :: s).
  destruct (isspace c) eqn:Hc; [by rewrite split_space|].
  rewrite split_nonspace by done.
  change (word_at (c :: s)) with (if isspace c then [] else c :: word_at s).
  change (after_word (c :: s))
    with (if isspace c then c :: s else after_word s).
  rewrite Hc. destruct s as [|c' s]; [done|].
  change (starts_word (c' :: s)) with (negb (isspace c')).
  destruct (isspace c') eqn:Hc'.
  - cbn [word_at after_word negb]. by rewrite Hc'.
  - rewrite IH. cbn [lstrip_by]. rewrite Hc'. cbn [word_at after_word glue]. by rewrite Hc'.
Qed.

Lemma starts_word_lower s : starts_word (lower s) = starts_word s.
Proof. destruct s; [done|]. simpl. by rewrite isspace_lower_char. Qed.

Lemma glue_lower c ws :
  map lower (glue c ws) = glue (lower_char c) (map lower ws).
Proof. by destruct ws. Qed.

Lemma split_lower s : split (lower s) = map lower (split s).
Proof.
  induction s as [|c s IH]; [done|].
  change (lower (c :: s)) with (lower_char c :: lower s). simpl.
  rewrite isspace_lower_char, starts_word_lower, IH.
  destruct (isspace c); [done|].
  destruct (starts_word s); [|done]. by rewrite glue_lower.
Qed.

Lemma lower_app s1 s2 : lower (s1 ++ s2) = lower s1 ++ lower s2.
Proof. apply map_app. Qed.

Lemma lower_idem s : lower (lower s) = lower s.
Proof.
  unfold lower. rewrite map_map. apply map_ext. apply lower_char_idem.
Qed.

Lemma join_lower ws :
  lower (join (lit " ") ws) = join (lit " ") (map lower ws).
Proof.
  induction ws as [|w ws IH]; [done|].
  destruct ws as [|w' ws]; [done|].
  change (join (lit " ") (w :: w' :: ws))
    with (w ++ lit " " ++ join (lit " ") (w' :: ws)).
  rewrite !lower_app, IH. done.
Qed.

Lemma join_nil_inv ws : Forall is_word ws → join (lit " ") ws = [] → ws = [].
Proof.
  destruct 1 as [|w ws [Hne _] _]; [done|].
  destruct ws; simpl; [done|]. by destruct w.
Qed.

(** Whitespace at either end does not change the words. *)
Lemma split_lstrip s : split (lstrip_by isspace s) = split s.
Proof.
  induction s as [|c s IH]; [done|]. simpl.
  destruct (isspace c) eqn:Hc; [done|]. simpl. by rewrite Hc.
Qed.

Lemma rstrip_nil_starts s :
  rstrip_by isspace s = [] → starts_word s = false.
Proof.
  destruct s as [|c s]; [done|]. simpl.
  destruct (rstrip_by isspace s); [|done].
  by destruct (isspace c).
Qed.

Lemma rstrip_starts s :
  rstrip_by isspace s ≠ [] →
  starts_word (rstrip_by isspace s) = starts_word s.
Proof.
  destruct s as [|c s]; [done|]. simpl.
  destruct (rstrip_by isspace s); [|done].
  destruct (isspace c) eqn:Hc; simpl; rewrite ?Hc; done.
Qed.

Lemma split_rstrip s : split (rstrip_by isspace s) = split s.
Proof.
  induction s as [|c s IH]; [done|].
  pose proof (rstrip_nil_starts s) as Hnil.
  pose proof (rstrip_starts s) as Hst.
  simpl. destruct (rstrip_by isspace s) as [|c' r] eqn:Hr.
  - rewrite Hnil by done. rewrite <-IH.
    destruct (isspace c) eqn:Hc; [done|]. simpl. by rewrite Hc.
  - rewrite <-IH, <-Hst by done. simpl. done.
Qed.

Lemma split_strip s : split (strip s) = split s.
Proof. unfold strip, strip_by. by rewrite split_rstrip, split_lstrip. Qed.

End Split.

(** ** Stripping *)

Section Strip.

Implicit Types (c : ascii) (s : str) (p : ascii → bool).

Lemma lstrip_by_spec p s :
  ∃ l, s = l ++ lstrip_by p s ∧ Forall (λ c, p c = true) l
       ∧ starts_with p (lstrip_by p s) = false.
Proof.
  induction s as [|c s (l & Hs & Hl & Hst)]; [by exists []|].
  simpl. destruct (p c) eqn:Hc.
  - exists (c :: l). split_and!; [by rewrite Hs at 1|by constructor|done].
  - exists []. simpl. by rewrite Hc.
Qed.

Lemma rstrip_by_spec p s :
  ∃ r, s = rstrip_by p s ++ r ∧ Forall (λ c, p c = true) r
       ∧ ends_with p (rstrip_by p s) = false.
Proof.
  induction s as [|c s (r & Hs & Hr & Hend)]; [by exists []|].
  simpl. destruct (rstrip_by p s) as [|c' s'] eqn:Heq.
  - destruct (p c) eqn:Hc.
    + exists (c :: s). simpl in Hs. split_and!; [done| |done].
      constructor; [done|]. by rewrite Hs.
    + exists r. simpl in Hs. split_and!; [by rewrite Hs at 1|done|].
      unfold ends_with. simpl. by rewrite Hc.
  - exists r. split_and!; [by rewrite Hs at 1|done|].
    unfold ends_with in *. by rewrite last_cons_cons.
Qed.

Lemma lstrip_by_snoc p s c :
  lstrip_by p (s ++ [c]) =
  match lstrip_by p s with
  | [] => if p c then [] else [c]
  | r => r ++ [c]
  end.
Proof.
  induction s as [|c' s IH]; [done|]. simpl.
  by destruct (p c').
Qed.

(** [rstrip_by] is [lstrip_by] seen from the other end. *)
Lemma rstrip_by_reverse p s :
  rstrip_by p s = reverse (lstrip_by p (reverse s)).
Proof.
  induction s as [|c s IH]; [done|]. simpl.
  rewrite reverse_cons, lstrip_by_snoc, IH.
  destruct (lstrip_by p (reverse s)) as [|c' r] eqn:Hr.
  - by destruct (p c).
  - rewrite reverse_app. simpl.
    destruct (reverse (c' :: r)) eqn:Hrev; [|done].
    apply (f_equal reverse) in Hrev. by rewrite reverse_involutive in Hrev.
Qed.

Lemma rstrip_by_starts p s :
  starts_with p s = false → starts_with p (rstrip_by p s) = false.
Proof.
  destruct s as [|c s]; [done|]. simpl. intros Hc.
  destruct (rstrip_by p s); [by rewrite Hc|done].
Qed.

Lemma lstrip_by_id p s : starts_with p s = false → lstrip_by p s = s.
Proof. destruct s as [|c s]; [done|]. simpl. by intros ->. Qed.

Lemma rstrip_by_id p s : ends_with p s = false → rstrip_by p s = s.
Proof.
  induction s as [|c s IH]; [done|]. unfold ends_with in *.
  destruct s as [|c' s].
  - simpl. by intros ->.
  - rewrite last_cons_cons. intros H. specialize (IH H).
    change (rstrip_by p (c :: c' :: s))
      with (match rstrip_by p (c' :: s) with
            | [] => if p c then [] else [c]
            | r => c :: r
            end).
    by rewrite IH.
Qed.

(** [strip] keeps a contiguous piece of the string, removes only
    whitespace, and leaves none at either end. *)
Lemma strip_spec s :
  ∃ l r, s = l ++ strip s ++ r
         ∧ Forall (λ c, isspace c = true) l
         ∧ Forall (λ c, isspace c = true) r
         ∧ starts_with isspace (strip s) = false
         ∧ ends_with isspace (strip s) = false.
Proof.
  unfold strip, strip_by.
  destruct (lstrip_by_spec isspace s) as (l & Hl & Hfl & Hst).
  destruct (rstrip_by_spec isspace (lstrip_by isspace s)) as (r & Hr & Hfr & Hend).
  exists l, r. split_and!; [|done|done| |done].
  - rewrite <-Hr. done.
  - by apply rstrip_by_starts.
Qed.

Lemma strip_idem s : strip (strip s) = strip s.
Proof.
  destruct (strip_spec s) as (_ & _ & _ & _ & _ & Hst & Hend).
  unfold strip at 1. unfold strip_by.
  rewrite lstrip_by_id by done. by apply rstrip_by_id.
Qed.

End Strip.

(** ** The normalizer *)

Section Normalize.

Import NormalizeSpec.

Lemma normalize_strip s : normalize (strip s) = normalize s.
Proof. unfold normalize. by rewrite split_strip. Qed.






Lemma join_glue c w ws :
  join (lit " ") (glue c (w :: ws)) = c :: join (lit " ") (w :: ws).
Proof. simpl. by destruct ws. Qed.

Lemma join_cons_word c ws :
  Forall is_word ws →
  join (lit " ") ([c] :: ws) =
  c :: match join (lit " ") ws with
       | [] => []
       | r => " "%char :: r
       end.
Proof.
  intros Hws. destruct ws as [|w ws]; [done|].
  destruct (join _ (w :: ws)) eqn:Hj; [by apply join_nil_inv in Hj|].
  simpl in Hj |- *. by rewrite Hj.
Qed.





End Normalize.

(** A string is blank when nothing is left after stripping; that is the
    case exactly when it has no words. *)
Lemma strip_nil_iff s : strip s = [] ↔ split s = [].
Proof.
  split; intros H.
  - by rewrite <-split_strip, H.
  - destruct (strip_spec s) as (_ & _ & _ & _ & _ & Hst & _).
    rewrite <-split_strip in H.
    destruct (strip s) as [|c v]; [done|].
    simpl in Hst.
    destruct (starts_word_split (c :: v)) as (w & ws & Hw);
      [simpl; by rewrite Hst | congruence].
Qed.

Lemma normalize_nil_iff s : normalize s = [] ↔ strip s = [].
Proof.
  rewrite strip_nil_iff. unfold normalize. split.
  - intros H. apply (join_nil_inv _ (split_words s)).
    by destruct (join _ (split s)).
  - by intros ->.
Qed.

(** ** The store *)

Section Store.

Implicit Types (t : Table) (d : Database) (key v ts : str).

Lemma has_norm_true t key : has_norm t key = true ↔ stored t key.
Proof.
  unfold has_norm, stored, select_by_norm. split.
  - destruct (filter _ _) as [|[i r] l] eqn:Hf; [done|]. intros _.
    assert ((i, r) ∈ filter (λ kr : Z * Row, value_norm kr.2 = key)
                       (map_to_list (rows t))) as Hin.
    { rewrite Hf. left. }
    apply list_elem_of_filter in Hin as [Hk Hin].
    apply elem_of_map_to_list in Hin. by exists i, r.
  - intros (i & r & Hl & Hk).
    assert ((i, r) ∈ filter (λ kr : Z * Row, value_norm kr.2 = key)
                       (map_to_list (rows t))) as Hin.
    { apply list_elem_of_filter. split; [done|].
      by apply elem_of_map_to_list. }
    destruct (filter _ _); [|done]. by apply elem_of_nil in Hin.
Qed.

Lemma has_norm_false t key : has_norm t key = false ↔ ¬ stored t key.
Proof.
  rewrite <-has_norm_true. by destruct (has_norm t key).
Qed.

Lemma foldr_max_ge (l : list Z) x : x ∈ l → x ≤ foldr Z.max 0 l.
Proof.
  induction 1 as [x l|x y l _ IH]; simpl; lia.
Qed.

Lemma max_rowid_ge t i r : rows t !! i = Some r → i ≤ max_rowid t.
Proof.
  intros H. apply foldr_max_ge.
  apply list_elem_of_fmap. exists (i, r). split; [done|].
  by apply elem_of_map_to_list.
Qed.

(** AUTOINCREMENT never reuses the key of a row that is there. *)
Lemma next_rowid_fresh t : rows t !! next_rowid t = None.
Proof.
  destruct (rows t !! next_rowid t) as [r|] eqn:H; [|done].
  apply max_rowid_ge in H. unfold next_rowid in H. lia.
Qed.

Lemma table_insert_conflict t v key ts :
  stored t key → table_insert t v key ts = Raise IntegrityError.
Proof.
  intros H%has_norm_true. unfold table_insert. by rewrite H.
Qed.

Lemma table_insert_ok t v key ts :
  ¬ stored t key →
  table_insert t v key ts =
  Ok (mkTable (<[next_rowid t := mkRow v key ts]> (rows t)) (next_rowid t)).
Proof.
  intros H%has_norm_false. unfold table_insert. by rewrite H.
Qed.

Lemma table_insert_unique t t' v key ts :
  table_insert t v key ts = Ok t' → unique_norm t → unique_norm t'.
Proof.
  unfold table_insert. destruct (has_norm t key) eqn:Hk; [done|].
  intros [= <-] Hu i j r1 r2. simpl.
  apply has_norm_false in Hk.
  rewrite !lookup_insert. repeat case_decide; subst; try done.
  - intros [= <-] Hj Heq. simpl in Heq. destruct Hk. by exists j, r2.
  - intros Hi [= <-] Heq. simpl in Heq. destruct Hk. by exists i, r1.
  - apply Hu.
Qed.

Lemma table_insert_count t t' v key ts :
  table_insert t v key ts = Ok t' → row_count t' = S (row_count t).
Proof.
  unfold table_insert. destruct (has_norm t key); [done|].
  intros [= <-]. unfold row_count. simpl.
  apply map_size_insert_None, next_rowid_fresh.
Qed.

Lemma run_stmt_unique d d' q :
  run_stmt d q = Ok d' → db_unique d → db_unique d'.
Proof.
  destruct q as [| |v key ts]; simpl.
  - by intros [= <-].
  - destruct d; intros [= <-]; [done|].
    intros _ i j r1 r2. simpl. by rewrite lookup_empty.
  - destruct d as [t|]; [|done].
    destruct (table_insert t v key ts) as [t'|e] eqn:Hi; [|done].
    intros [= <-] Hu. simpl. by eapply table_insert_unique.
Qed.

Lemma run_others_unique qs d : db_unique d → db_unique (run_others d qs).
Proof.
  unfold run_others. revert d.
  induction qs as [|q qs IH]; intros d Hd; [done|]. simpl.
  apply IH. destruct (run_stmt d q) as [d'|e] eqn:Hq; [|done].
  by apply run_stmt_unique in Hq.
Qed.

End Store.

(** ** The program's operations *)

Section Operations.

Implicit Types (w : World) (t : Table) (raw : str) (raw_value : option str).

Lemma world_eta w : mkWorld (db w) (stdout w) = w.
Proof. by destruct w. Qed.

Lemma init_db_reset w :
  init_db true w = (Ok tt, mkWorld (Some empty_table) (stdout w)).
Proof. done. Qed.

Lemma init_db_keep w t :
  db w = Some t → init_db false w = (Ok tt, w).
Proof. destruct w as [d out]. simpl. by intros ->. Qed.

Lemma init_db_create w :
  db w = None → init_db false w = (Ok tt, mkWorld (Some empty_table) (stdout w)).
Proof. destruct w as [d out]. simpl. by intros ->. Qed.

Lemma init_db_ok reset w :
  ∃ t, init_db reset w = (Ok tt, mkWorld (Some t) (stdout w)).
Proof.
  destruct reset; [by eexists|].
  destruct (db w) as [t|] eqn:Hd.
  - exists t. rewrite (init_db_keep _ t) by done. destruct w; simpl in *.
    by subst.
  - eexists. by apply init_db_create.
Qed.

Lemma classify_blank raw_value w :
  blank raw_value → classify raw_value w = (Ok FalsePositive, w).
Proof.
  destruct raw_value as [raw|]; [|done]. simpl. intros H.
  unfold classify, str_eqb. by rewrite bool_decide_eq_true_2.
Qed.

Lemma classify_table raw w t :
  strip raw ≠ [] → db w = Some t →
  classify (Some raw) w =
  (Ok (if has_norm t (normalize raw) then Redundant else Unique), w).
Proof.
  intros Hne Hd. unfold classify, str_eqb.
  rewrite bool_decide_eq_false_2 by done.
  unfold bind, query. by rewrite Hd, normalize_strip.
Qed.

Lemma classify_no_table raw w :
  strip raw ≠ [] → db w = None →
  classify (Some raw) w = (Raise OperationalError, w).
Proof.
  intros Hne Hd. unfold classify, str_eqb.
  rewrite bool_decide_eq_false_2 by done.
  unfold bind, query. by rewrite Hd.
Qed.

Lemma classify_world raw_value w : (classify raw_value w).2 = w.
Proof.
  destruct raw_value as [raw|]; [|done].
  destruct (decide (strip raw = [])) as [Hb|Hb].
  - by rewrite classify_blank.
  - destruct (db w) as [t|] eqn:Hd.
    + by rewrite (classify_table _ _ t).
    + by rewrite classify_no_table.
Qed.

Lemma insert_unique_unfold others now raw_value w :
  insert_unique others now raw_value w =
  bind (classify raw_value)
       (λ cls,
          match cls with
          | FalsePositive => print OutFalsePositive
          | Redundant => print (OutRedundant raw_value)
          | Unique =>
              match raw_value with
              | None => raise AttributeError
              | Some raw =>
                  bind (meanwhile others)
                       (λ _, try_except
                               (bind (execute (SqlInsert (strip raw)
                                                (normalize (strip raw)) now))
                                     (λ _, bind commit
                                             (λ _, print (OutInserted (strip raw)))))
                               IntegrityError
                               (print (OutRedundant raw_value)))
              end
          end) w.
Proof. done. Qed.

Lemma insert_unique_blank others now raw_value w :
  blank raw_value →
  insert_unique others now raw_value w = (Ok tt, printed w OutFalsePositive).
Proof.
  intros H. rewrite insert_unique_unfold. unfold bind.
  by rewrite classify_blank.
Qed.

Lemma insert_unique_stored others now raw w t :
  strip raw ≠ [] → db w = Some t → stored t (normalize raw) →
  insert_unique others now (Some raw) w =
  (Ok tt, printed w (OutRedundant (Some raw))).
Proof.
  intros Hne Hd Hk%has_norm_true. rewrite insert_unique_unfold. unfold bind.
  by rewrite (classify_table _ _ t), Hk.
Qed.

(** A novel input reaches the INSERT, which runs on the database as the
    other connections have left it. *)
Lemma insert_unique_novel others now raw w t :
  strip raw ≠ [] → db w = Some t → ¬ stored t (normalize raw) →
  insert_unique others now (Some raw) w =
  match run_others (db w) others with
  | None => (Raise OperationalError, mkWorld None (stdout w))
  | Some t' =>
      match table_insert t' (strip raw) (normalize raw) now with
      | Ok t'' =>
          (Ok tt, printed (mkWorld (Some t'') (stdout w)) (OutInserted (strip raw)))
      | Raise _ =>
          (Ok tt, printed (mkWorld (Some t') (stdout w)) (OutRedundant (Some raw)))
      end
  end.
Proof.
  intros Hne Hd Hk%has_norm_false. rewrite insert_unique_unfold. unfold bind.
  rewrite (classify_table _ _ t), Hk by done.
  unfold meanwhile, try_except, execute, commit, ret. simpl.
  rewrite normalize_strip.
  destruct (run_others (db w) others) as [t'|]; [|done].
  unfold table_insert.
  by destruct (has_norm t' (normalize raw)).
Qed.

End Operations.

(** ** Listing the table *)

Section Listing.

Implicit Types (w : World) (t : Table).

Global Instance id_le_trans : Transitive id_le.
Proof. intros a b c. unfold id_le. lia. Qed.

Global Instance id_le_total : Total id_le.
Proof. intros a b. unfold id_le. lia. Qed.

Lemma strictly_sorted (l : list (Z * Row)) :
  StronglySorted id_le l → NoDup (l.*1) → StronglySorted Z.lt (l.*1).
Proof.
  induction 1 as [|x l Hs IH Hx]; [constructor|].
  rewrite fmap_cons. intros [Hnot Hnd]%NoDup_cons.
  constructor; [by apply IH|].
  apply Forall_fmap, Forall_forall. intros y Hy. simpl.
  rewrite Forall_forall in Hx. specialize (Hx y Hy). unfold id_le in Hx.
  assert (x.1 ≠ y.1); [|lia].
  intros Heq. apply Hnot. rewrite Heq. by apply list_elem_of_fmap_2.
Qed.

Lemma select_all_ids t :
  map row_id (select_all t) = (merge_sort id_le (map_to_list (rows t))).*1.
Proof. unfold select_all. rewrite map_map. done. Qed.

Lemma select_all_sorted t :
  StronglySorted Z.lt (map row_id (select_all t)).
Proof.
  rewrite select_all_ids. apply strictly_sorted.
  - apply StronglySorted_merge_sort; apply _.
  - rewrite merge_sort_Permutation. apply NoDup_fst_map_to_list.
Qed.

Lemma select_all_elem t i v ts :
  (i, v, ts) ∈ select_all t ↔
  ∃ r, rows t !! i = Some r ∧ value r = v ∧ created_at r = ts.
Proof.
  unfold select_all. rewrite list_elem_of_fmap. split.
  - intros ([j r] & [= -> -> ->] & Hin).
    rewrite merge_sort_Permutation in Hin.
    apply elem_of_map_to_list in Hin. by exists r.
  - intros (r & Hr & <- & <-). exists (i, r). split; [done|].
    rewrite merge_sort_Permutation. by apply elem_of_map_to_list.
Qed.

Lemma select_all_length t : length (select_all t) = row_count t.
Proof.
  unfold select_all, row_count.
  rewrite length_map, merge_sort_Permutation. apply length_map_to_list.
Qed.

Lemma select_all_nil t : select_all t = [] ↔ row_count t = 0%nat.
Proof.
  rewrite <-select_all_length. by destruct (select_all t).
Qed.

Lemma for_each_print (rs : list (Z * str * str)) w :
  for_each rs (λ r, print (OutRow r)) w =
  (Ok tt, mkWorld (db w) (stdout w ++ map OutRow rs)).
Proof.
  revert w. induction rs as [|r rs IH]; intros w; simpl.
  - unfold ret. by rewrite app_nil_r, world_eta.
  - unfold bind, print. rewrite IH. simpl. by rewrite <-app_assoc.
Qed.

Lemma show_data_table w t :
  db w = Some t →
  show_data w = (Ok tt, mkWorld (db w) (stdout w ++ listing t)).
Proof.
  intros Hd. unfold show_data, bind, query, listing. rewrite Hd.
  destruct (select_all t) as [|r rs]; [by rewrite <-Hd|].
  change ((print OutEntries;; for_each (r :: rs) (λ r, print (OutRow r))) w)
    with (for_each (r :: rs) (λ r, print (OutRow r)) (printed w OutEntries)).
  rewrite for_each_print. simpl. rewrite Hd. by rewrite <-app_assoc.
Qed.

End Listing.

(** ** Reachable states of the store *)

Section Reachable.

Implicit Types (w : World) (t : Table) (d : Database).

Lemma insert_unique_no_table others now raw w :
  strip raw ≠ [] → db w = None →
  insert_unique others now (Some raw) w = (Raise OperationalError, w).
Proof.
  intros Hne Hd. rewrite insert_unique_unfold. unfold bind.
  by rewrite classify_no_table.
Qed.

(** What a call of [insert_unique] can do to the database. *)
Lemma insert_unique_db others now raw_value w :
  let d' := db (insert_unique others now raw_value w).2 in
  d' = db w
  ∨ d' = run_others (db w) others
  ∨ ∃ raw t' t'',
      raw_value = Some raw
      ∧ run_others (db w) others = Some t'
      ∧ table_insert t' (strip raw) (normalize (strip raw)) now = Ok t''
      ∧ d' = Some t''.
Proof.
  destruct raw_value as [raw|]; [|by left].
  destruct (decide (strip raw = [])) as [Hb|Hb].
  { left. by rewrite insert_unique_blank. }
  destruct (db w) as [t|] eqn:Hd.
  2:{ left. by rewrite insert_unique_no_table. }
  destruct (decide (stored t (normalize raw))) as [Hk|Hk].
  { left. by rewrite (insert_unique_stored _ _ _ _ t). }
  rewrite (insert_unique_novel _ _ _ _ t) by done. rewrite Hd.
  destruct (run_others (Some t) others) as [t'|] eqn:Hr; [|by right; left].
  destruct (table_insert t' _ _ now) as [t''|e] eqn:Hi; [|by right; left].
  right; right. exists raw, t', t''. by rewrite normalize_strip.
Qed.

Lemma init_db_unique reset w :
  db_unique (db w) → db_unique (db (init_db reset w).2).
Proof.
  destruct reset.
  - rewrite init_db_reset. simpl. intros _ i j r1 r2. simpl.
    by rewrite lookup_empty.
  - destruct (db w) as [t|] eqn:Hd.
    + rewrite (init_db_keep _ t) by done. simpl. by rewrite Hd.
    + rewrite init_db_create by done. simpl. intros _ i j r1 r2. simpl.
      by rewrite lookup_empty.
Qed.

Lemma insert_unique_keeps_unique others now raw_value w :
  db_unique (db w) → db_unique (db (insert_unique others now raw_value w).2).
Proof.
  intros Hu.
  destruct (insert_unique_db others now raw_value w)
    as [-> | [-> | (raw & t' & t'' & _ & Hr & Hi & ->)]].
  - done.
  - by apply run_others_unique.
  - simpl. eapply table_insert_unique; [done|].
    change (db_unique (Some t')). rewrite <-Hr. by apply run_others_unique.
Qed.

Lemma reachable_unique d : reachable d → db_unique d.
Proof.
  induction 1 as [|reset w _ IH|others now raw_value w _ _ IH].
  - done.
  - by apply init_db_unique.
  - by apply insert_unique_keeps_unique.
Qed.

Lemma stripped_row_ok raw ts :
  row_ok (mkRow (strip raw) (normalize (strip raw)) ts).
Proof.
  destruct (strip_spec raw) as (_ & _ & _ & _ & _ & Hst & Hend).
  by split_and!.
Qed.

Lemma table_insert_rows_ok t t' raw ts :
  table_insert t (strip raw) (normalize (strip raw)) ts = Ok t' →
  rows_ok (Some t) → rows_ok (Some t').
Proof.
  unfold table_insert. destruct (has_norm t _); [done|].
  intros [= <-] Hok i r. simpl. rewrite lookup_insert.
  case_decide; [|by apply Hok].
  intros [= <-]. apply stripped_row_ok.
Qed.

Lemma run_stmt_rows_ok d d' q :
  program_stmt q → run_stmt d q = Ok d' → rows_ok d → rows_ok d'.
Proof.
  destruct q as [| |v key ts]; simpl.
  - by intros _ [= <-].
  - intros _. destruct d; intros [= <-]; [done|].
    intros _ i r. simpl. by rewrite lookup_empty.
  - intros (raw & -> & ->). destruct d as [t|]; [|done].
    destruct (table_insert t _ _ ts) as [t'|e] eqn:Hi; [|done].
    intros [= <-] Hok. by eapply table_insert_rows_ok.
Qed.

Lemma run_others_rows_ok qs d :
  Forall program_stmt qs → rows_ok d → rows_ok (run_others d qs).
Proof.
  unfold run_others. intros Hqs. revert d.
  induction Hqs as [|q qs Hq _ IH]; intros d Hd; [done|]. simpl.
  apply IH. destruct (run_stmt d q) as [d'|e] eqn:Hr; [|done].
  by eapply run_stmt_rows_ok.
Qed.

Lemma init_db_rows_ok reset w :
  rows_ok (db w) → rows_ok (db (init_db reset w).2).
Proof.
  destruct reset.
  - rewrite init_db_reset. simpl. intros _ i r. by rewrite lookup_empty.
  - destruct (db w) as [t|] eqn:Hd.
    + rewrite (init_db_keep _ t) by done. simpl. by rewrite Hd.
    + rewrite init_db_create by done. simpl. intros _ i r.
      by rewrite lookup_empty.
Qed.

Lemma reachable_rows_ok d : reachable d → rows_ok d.
Proof.
  induction 1 as [|reset w _ IH|others now raw_value w Hqs _ IH].
  - done.
  - by apply init_db_rows_ok.
  - destruct (insert_unique_db others now raw_value w)
      as [-> | [-> | (raw & t' & t'' & _ & Hr & Hi & ->)]].
    + done.
    + by apply run_others_rows_ok.
    + eapply table_insert_rows_ok; [done|].
      rewrite <-Hr. by apply run_others_rows_ok.
Qed.

End Reachable.

(** ** The session loop *)

Section Session.

Implicit Types (w : World) (t : Table) (i : Input) (rest : list Input).

Lemma repl_cons i rest w :
  repl (i :: rest) w =
  let w1 := printed w OutPrompt in
  if is_exit i then (Ok tt, w1)
  else if str_eqb (command i) (lit "show") then
    bind show_data (λ _, repl rest) w1
  else if str_eqb (command i) (lit "reset") then
    bind (init_db true)
         (λ _, bind (print OutResetDone)
                 (λ _, bind show_data (λ _, repl rest))) w1
  else
    bind (insert_unique [] (utc i) (Some (strip (line i))))
         (λ _, bind show_data (λ _, repl rest)) w1.
Proof.
  unfold is_exit, command.
  change (repl (i :: rest) w) with
    ((print OutPrompt;;
      if str_eqb (lower (strip (line i))) (lit "exit") then ret tt
      else if str_eqb (lower (strip (line i))) (lit "show") then
        show_data;; repl rest
      else if str_eqb (lower (strip (line i))) (lit "reset") then
        init_db true;; print OutResetDone;; show_data;; repl rest
      else
        insert_unique [] (utc i) (Some (strip (line i)));;
        show_data;; repl rest) w).
  cbv zeta.
  destruct (str_eqb (lower (strip (line i))) (lit "exit")); [done|].
  destruct (str_eqb (lower (strip (line i))) (lit "show")); [done|].
  by destruct (str_eqb (lower (strip (line i))) (lit "reset")).
Qed.

Lemma repl_exit i rest w :
  command i = lit "exit" → repl (i :: rest) w = (Ok tt, printed w OutPrompt).
Proof.
  intros H. rewrite repl_cons. unfold is_exit, str_eqb.
  by rewrite bool_decide_eq_true_2.
Qed.

Lemma repl_show i rest w t :
  command i = lit "show" → db w = Some t →
  repl (i :: rest) w =
  repl rest (mkWorld (db w) (stdout w ++ OutPrompt :: listing t)).
Proof.
  intros H Hd. rewrite repl_cons. unfold is_exit. rewrite H. cbv zeta.
  change (str_eqb (lit "show") (lit "exit")) with false.
  change (str_eqb (lit "show") (lit "show")) with true. cbv iota.
  unfold bind. rewrite (show_data_table _ t) by done. simpl.
  by rewrite <-app_assoc.
Qed.

Lemma repl_reset i rest w :
  command i = lit "reset" →
  repl (i :: rest) w =
  repl rest (mkWorld (Some empty_table)
               (stdout w ++ [OutPrompt; OutResetDone; OutEmpty])).
Proof.
  intros H. rewrite repl_cons. unfold is_exit. rewrite H. cbv zeta.
  change (str_eqb (lit "reset") (lit "exit")) with false.
  change (str_eqb (lit "reset") (lit "show")) with false.
  change (str_eqb (lit "reset") (lit "reset")) with true. cbv iota.
  unfold bind. rewrite init_db_reset. unfold print at 1. simpl.
  rewrite (show_data_table _ empty_table) by done. simpl.
  by rewrite <-!app_assoc.
Qed.

(** Without other connections, [insert_unique] returns normally and the
    table stays. *)
Lemma insert_unique_alone now raw_value w t :
  db w = Some t →
  ∃ t' out, insert_unique [] now raw_value w = (Ok tt, mkWorld (Some t') out).
Proof.
  intros Hd.
  assert (blank raw_value ∨ ∃ raw, raw_value = Some raw ∧ strip raw ≠ [])
    as [Hb | (raw & -> & Hb)].
  { destruct raw_value as [raw|]; [|by left]. simpl.
    destruct (decide (strip raw = [])); eauto. }
  { rewrite insert_unique_blank by done. unfold printed. rewrite Hd. eauto. }
  destruct (decide (stored t (normalize raw))) as [Hk|Hk].
  { rewrite (insert_unique_stored _ _ _ _ t) by done.
    unfold printed. rewrite Hd. eauto. }
  rewrite (insert_unique_novel _ _ _ _ t) by done. rewrite Hd. simpl.
  destruct (table_insert t _ _ now); unfold printed; simpl; eauto.
Qed.

Lemma repl_result inputs w :
  is_Some (db w) →
  (repl inputs w).1 = if existsb is_exit inputs then Ok tt else Raise EOFError.
Proof.
  revert w. induction inputs as [|i rest IH]; intros w [t Hd]; [done|].
  rewrite repl_cons. cbv zeta.
  change (existsb is_exit (i :: rest))
    with (is_exit i || existsb is_exit rest).
  destruct (is_exit i); [done|]. cbv iota. rewrite orb_false_l.
  destruct (str_eqb (command i) (lit "show")).
  { unfold bind. rewrite (show_data_table _ t) by done. apply IH.
    simpl. eauto. }
  destruct (str_eqb (command i) (lit "reset")).
  { unfold bind. rewrite init_db_reset. unfold print at 1. simpl.
    rewrite (show_data_table _ empty_table) by done. apply IH.
    simpl. eauto. }
  unfold bind at 1.
  destruct (insert_unique_alone (utc i) (Some (strip (line i)))
              (printed w OutPrompt) t Hd) as (t' & out & ->).
  unfold bind. rewrite (show_data_table _ t') by done. apply IH.
  simpl. eauto.
Qed.

Lemma main_result reset inputs w :
  (main reset inputs w).1 =
  if existsb is_exit inputs then Ok tt else Raise EOFError.
Proof.
  destruct (init_db_ok reset w) as [t Ht].
  change (main reset inputs w) with
    (bind (init_db reset)
       (λ _, bind (print OutBanner)
               (λ _, bind (print OutUsage)
                       (λ _, bind (repl inputs) (λ _, close)))) w).
  unfold bind at 1. rewrite Ht. unfold bind, print. simpl.
  set (w' := mkWorld _ _).
  rewrite <-(repl_result inputs w') by (simpl; eauto).
  by destruct (repl inputs w') as [[[]|e] w''].
Qed.

End Session.

(** * Worked inputs *)

Example normalize_hello :
  normalize (lit "  Hello   World  ") = lit "hello world".
Proof. reflexivity. Qed.

Example split_mixed_whitespace :
  split ("009"%char :: lit "a " ++ "010"%char :: "160"%char :: lit "Bc" ++ ["013"%char])
  = [lit "a"; lit "Bc"].
Proof. reflexivity. Qed.

Example strip_keeps_interior :
  strip (lit "  Hello   World ") = lit "Hello   World".
Proof. reflexivity. Qed.

Example lower_latin1 :
  lower ["A"%char; "Z"%char; "192"%char; "215"%char; "222"%char; "223"%char]
  = ["a"%char; "z"%char; "224"%char; "215"%char; "254"%char; "223"%char].
Proof. reflexivity. Qed.

Example hello_stored :
  map_to_list (rows t_hello)
  = [(1, mkRow (lit "Hello World") (lit "hello world") ts1)].
Proof. reflexivity. Qed.

Example hello_again :
  insert_unique [] ts2 (Some (lit "  hello   world  ")) w_hello
  = (Ok tt, mkWorld (Some t_hello)
              [OutInserted (lit "Hello World");
               OutRedundant (Some (lit "  hello   world  "))]).
Proof. reflexivity. Qed.

Example blank_ignored :
  insert_unique [] ts2 (Some (lit "   ")) w_hello
  = (Ok tt, mkWorld (Some t_hello)
              [OutInserted (lit "Hello World"); OutFalsePositive]).
Proof. reflexivity. Qed.

(** * The claims *)

(** C1: in every reachable state of the store no two entries share a
    normalized value.  The UNIQUE constraint on [value_norm] holds in the
    file before the table exists, [init_db] (with or without reset) and
    [insert_unique] (whatever other connections do meanwhile) keep it, and
    the INSERT statement refuses a row whose key is already stored: it
    raises [IntegrityError] and changes nothing. *)
Theorem unique_norm_invariant d :
  reachable d →
  db_unique d
  ∧ (∀ reset out, db_unique (db (init_db reset (mkWorld d out)).2))
  ∧ (∀ others now raw_value out,
       db_unique (db (insert_unique others now raw_value (mkWorld d out)).2))
  ∧ (∀ t v key ts out,
       d = Some t → stored t key →
       execute (SqlInsert v key ts) (mkWorld d out)
       = (Raise IntegrityError, mkWorld d out)).
Proof.
  intros Hd%reachable_unique. split_and!.
  - done.
  - intros reset out. by apply init_db_unique.
  - intros others now raw_value out. by apply insert_unique_keeps_unique.
  - intros t v key ts out -> Hk. unfold execute. simpl.
    by rewrite table_insert_conflict.
Qed.

Lemma unique_norm_invariant_witness :
  reachable (db w_hello)
  ∧ db_unique (db w_hello)
  ∧ execute (SqlInsert (lit "HELLO world") (lit "hello world") ts2) w_hello
    = (Raise IntegrityError, w_hello).
Proof.
  assert (reachable (db w_hello)) as Hr.
  { apply reach_insert; [constructor|]. apply reach_init, reach_fresh. }
  destruct (unique_norm_invariant (db w_hello) Hr) as (Hu & _ & _ & Hins).
  split_and!; [done|done|].
  apply (Hins t_hello (lit "HELLO world") (lit "hello world") ts2
           (stdout w_hello)); [reflexivity|].
  apply has_norm_true. reflexivity.
Defined.

(** C2: on a database that holds the table (as it does once [init_db]
    has run), [classify] answers [FalsePositive] exactly when the input is
    absent or empty after trimming; otherwise [Redundant] exactly when an
    entry with the input's normalized key is stored, and [Unique] when
    none is.  It returns without raising, and the database and standard
    output are afterwards what they were before. *)
Theorem classify_spec raw_value w t :
  db w = Some t →
  (classify raw_value w).2 = w
  ∧ ∃ cls,
      (classify raw_value w).1 = Ok cls
      ∧ (cls = FalsePositive ↔ blank raw_value)
      ∧ (cls = Redundant ↔ ¬ blank raw_value ∧ key_stored t raw_value)
      ∧ (cls = Unique ↔ ¬ blank raw_value ∧ ¬ key_stored t raw_value).
Proof.
  intros Hd. split; [apply classify_world|].
  destruct raw_value as [raw|].
  2:{ exists FalsePositive. simpl. split_and!; [done|done|..];
      split; (done || by intros [[] _]). }
  destruct (decide (strip raw = [])) as [Hb|Hb].
  { exists FalsePositive. rewrite classify_blank by done. simpl.
    split_and!; [done|done|..]; split; (done || by intros [[] _]). }
  rewrite (classify_table raw w t) by done. simpl.
  destruct (has_norm t (normalize raw)) eqn:Hk.
  - apply has_norm_true in Hk. exists Redundant.
    split_and!; [done|..]; split; try done. by intros [_ []].
  - apply has_norm_false in Hk. exists Unique.
    split_and!; [done|..]; split; try done. by intros [_ ?].
Qed.

Lemma classify_spec_witness :
  db w_hello = Some t_hello
  ∧ (classify (Some (lit " hello  WORLD")) w_hello).2 = w_hello
  ∧ (classify (Some (lit " hello  WORLD")) w_hello).1 = Ok Redundant.
Proof.
  assert (db w_hello = Some t_hello) as Hd by reflexivity.
  destruct (classify_spec (Some (lit " hello  WORLD")) w_hello t_hello Hd)
    as (Hw & _).
  split_and!; [done|done|reflexivity].
Defined.

(** C3: an invalid or duplicate input changes no row.  For a blank or
    absent value, and for a value whose normalized key is already stored,
    [insert_unique] only prints its notice.  A novel value is inserted by
    the first call, which adds one row; a second call with any input of
    the same normalized key is classified [Redundant] and leaves the table,
    hence its row count, as the first call left it. *)
Theorem rejected_input_no_change others now w :
  (∀ raw_value,
     blank raw_value →
     insert_unique others now raw_value w = (Ok tt, printed w OutFalsePositive))
  ∧ (∀ t raw,
       db w = Some t → strip raw ≠ [] → stored t (normalize raw) →
       insert_unique others now (Some raw) w
       = (Ok tt, printed w (OutRedundant (Some raw))))
  ∧ (∀ t raw again now',
       db w = Some t → strip raw ≠ [] → ¬ stored t (normalize raw) →
       normalize again = normalize raw →
       ∃ t',
         insert_unique [] now (Some raw) w
         = (Ok tt, mkWorld (Some t') (stdout w ++ [OutInserted (strip raw)]))
         ∧ row_count t' = S (row_count t)
         ∧ ∀ out,
             classify (Some again) (mkWorld (Some t') out)
             = (Ok Redundant, mkWorld (Some t') out)
             ∧ insert_unique others now' (Some again) (mkWorld (Some t') out)
               = (Ok tt, mkWorld (Some t') (out ++ [OutRedundant (Some again)]))).
Proof.
  split_and!.
  - intros raw_value Hb. by apply insert_unique_blank.
  - intros t raw Hd Hne Hk. by apply (insert_unique_stored _ _ _ _ t).
  - intros t raw again now' Hd Hne Hk Hsame.
    set (t' := mkTable (<[next_rowid t :=
                            mkRow (strip raw) (normalize raw) now]> (rows t))
                 (next_rowid t)).
    assert (table_insert t (strip raw) (normalize raw) now = Ok t') as Hi.
    { by apply table_insert_ok. }
    assert (strip again ≠ []) as Hne'.
    { intros Hb%normalize_nil_iff. rewrite Hsame in Hb.
      by apply normalize_nil_iff in Hb. }
    assert (stored t' (normalize again)) as Hk'.
    { rewrite Hsame. eexists _, _. split; [apply lookup_insert_eq|done]. }
    exists t'. split_and!.
    + rewrite (insert_unique_novel _ _ _ _ t) by done.
      change (run_others (db w) []) with (db w). by rewrite Hd, Hi.
    + by eapply table_insert_count.
    + intros out. split.
      * rewrite (classify_table _ _ t') by done.
        apply has_norm_true in Hk'. by rewrite Hk'.
      * by rewrite (insert_unique_stored _ _ _ _ t').
Qed.

Lemma rejected_input_no_change_witness :
  blank (Some (lit "   "))
  ∧ insert_unique rival ts2 (Some (lit "   ")) w_hello
    = (Ok tt, printed w_hello OutFalsePositive)
  ∧ insert_unique rival ts2 (Some (lit "hello  world")) w_hello
    = (Ok tt, printed w_hello (OutRedundant (Some (lit "hello  world"))))
  ∧ ∃ t',
      insert_unique [] ts1 (Some (lit "Hello World")) w_init
      = (Ok tt, mkWorld (Some t') [OutInserted (lit "Hello World")])
      ∧ row_count t' = 1%nat
      ∧ insert_unique [] ts2 (Some (lit " hello   WORLD")) (mkWorld (Some t') [])
        = (Ok tt, mkWorld (Some t') [OutRedundant (Some (lit " hello   WORLD"))]).
Proof.
  destruct (rejected_input_no_change rival ts2 w_hello) as (Hb & Hdup & _).
  destruct (rejected_input_no_change [] ts1 w_init) as (_ & _ & Htwice).
  assert (blank (Some (lit "   "))) as H by reflexivity.
  split_and!; [done|by apply Hb| |].
  - apply (Hdup t_hello); [reflexivity|discriminate|].
    apply has_norm_true. reflexivity.
  - destruct (Htwice empty_table (lit "Hello World") (lit " hello   WORLD") ts2)
      as (t' & Hfirst & Hcount & Hsecond).
    + reflexivity.
    + discriminate.
    + apply has_norm_false. reflexivity.
    + reflexivity.
    + exists t'. split_and!; [done|done|]. apply Hsecond.
Defined.

(** C4: when [classify] found the input novel but another connection
    stored its key before the INSERT ran, the uniqueness violation raised
    by the INSERT is caught: [insert_unique] returns normally, the table is
    the one the other connection left, and the line printed is the
    redundant-entry notice, the same output as when the duplicate is found
    by [classify] on that table. *)
Theorem race_conflict_is_duplicate others now raw w t t' :
  db w = Some t → strip raw ≠ [] → ¬ stored t (normalize raw) →
  run_others (db w) others = Some t' → stored t' (normalize raw) →
  (classify (Some raw) w).1 = Ok Unique
  ∧ insert_unique others now (Some raw) w
    = (Ok tt, mkWorld (Some t') (stdout w ++ [OutRedundant (Some raw)]))
  ∧ insert_unique [] now (Some raw) (mkWorld (Some t') (stdout w))
    = (Ok tt, mkWorld (Some t') (stdout w ++ [OutRedundant (Some raw)])).
Proof.
  intros Hd Hne Hk Hr Hk'. split_and!.
  - rewrite (classify_table _ _ t) by done.
    apply has_norm_false in Hk. by rewrite Hk.
  - rewrite (insert_unique_novel _ _ _ _ t) by done.
    by rewrite Hr, table_insert_conflict.
  - by rewrite (insert_unique_stored _ _ _ _ t').
Qed.

Lemma race_conflict_is_duplicate_witness :
  run_others (db w_init) rival = Some t_rival
  ∧ insert_unique rival ts2 (Some (lit "Hello World")) w_init
    = (Ok tt, mkWorld (Some t_rival)
                [OutRedundant (Some (lit "Hello World"))]).
Proof.
  split; [reflexivity|].
  apply (race_conflict_is_duplicate rival ts2 (lit "Hello World") w_init
           empty_table t_rival).
  - reflexivity.
  - discriminate.
  - apply has_norm_false. reflexivity.
  - reflexivity.
  - apply has_norm_true. reflexivity.
Defined.

(** C5, as the code has it: [main] returns, and the exit status is 0,
    when some input line is the [exit] command (in any letter case, with
    whitespace around it); when standard input ends before that, [input]
    raises [EOFError], nothing catches it, and the exit status is 1. *)
Theorem main_exit_status reset inputs w :
  (existsb is_exit inputs = true →
   (main reset inputs w).1 = Ok tt
   ∧ exit_code (main reset inputs w).1 = 0)
  ∧ (existsb is_exit inputs = false →
     (main reset inputs w).1 = Raise EOFError
     ∧ exit_code (main reset inputs w).1 = 1).
Proof.
  rewrite main_result. split; intros ->; done.
Qed.

Lemma main_exit_status_witness :
  existsb is_exit session_exit = true
  ∧ exit_code (main false session_exit fresh).1 = 0.
Proof.
  split; [reflexivity|].
  apply (main_exit_status false session_exit fresh). reflexivity.
Defined.

(** C5 as stated fails: at end of input the exit status is not 0. *)
Lemma eof_exit_code :
  (main false session_eof fresh).1 = Raise EOFError
  ∧ exit_code (main false session_eof fresh).1 ≠ 0.
Proof. split; [reflexivity|]. vm_compute. discriminate. Qed.



(** C7: [normalize] is idempotent. *)
Theorem normalize_idempotent s : normalize (normalize s) = normalize s.
Proof.
  unfold normalize.
  (* the words of a normalized string are the lowercased words *)
  rewrite split_lower, split_join by apply split_words.
  (* joining them and lowercasing again changes nothing *)
  rewrite <-join_lower. apply lower_idem.
Qed.

(** C8: from any state of the store, the [reset] command followed by the
    [show] command lists an empty table.  [init_db] with reset leaves the
    empty table whatever was there; the loop prints the reset notice and
    the empty-table notice for [reset], and the empty-table notice again
    for [show]. *)
Theorem reset_then_show_empty w i_reset i_show rest :
  command i_reset = lit "reset" → command i_show = lit "show" →
  db (init_db true w).2 = Some empty_table
  ∧ select_all empty_table = []
  ∧ repl (i_reset :: i_show :: rest) w
    = repl rest
        (mkWorld (Some empty_table)
           (stdout w ++ [OutPrompt; OutResetDone; OutEmpty;
                         OutPrompt; OutEmpty])).
Proof.
  intros Hreset Hshow. split_and!; [done|done|].
  rewrite repl_reset by done.
  rewrite (repl_show _ _ _ empty_table) by done. simpl.
  by rewrite <-app_assoc.
Qed.

Lemma reset_then_show_empty_witness :
  command (mkInput (lit " Reset") ts1) = lit "reset"
  ∧ command (mkInput (lit "SHOW") ts2) = lit "show"
  ∧ (repl [mkInput (lit " Reset") ts1; mkInput (lit "SHOW") ts2] w_hello).2
    = mkWorld (Some empty_table)
        [OutInserted (lit "Hello World");
         OutPrompt; OutResetDone; OutEmpty; OutPrompt; OutEmpty; OutPrompt].
Proof.
  split_and!; [reflexivity..|].
  destruct (reset_then_show_empty w_hello (mkInput (lit " Reset") ts1)
              (mkInput (lit "SHOW") ts2) [] eq_refl eq_refl) as (_ & _ & ->).
  reflexivity.
Defined.

(** C9: [show_data] lists every stored entry, by strictly ascending
    [id]; the listing of a table without rows is empty, and what is
    printed then is the empty-database notice. *)
Theorem show_data_listing w t :
  db w = Some t →
  show_data w = (Ok tt, mkWorld (db w) (stdout w ++ listing t))
  ∧ (∀ i v ts,
       (i, v, ts) ∈ select_all t
       ↔ ∃ r, rows t !! i = Some r ∧ value r = v ∧ created_at r = ts)
  ∧ length (select_all t) = row_count t
  ∧ StronglySorted Z.lt (map row_id (select_all t))
  ∧ (row_count t = 0%nat → select_all t = [] ∧ listing t = [OutEmpty])
  ∧ (row_count t ≠ 0%nat →
     listing t = OutEntries :: map OutRow (select_all t)).
Proof.
  intros Hd. split_and!.
  - by apply show_data_table.
  - apply select_all_elem.
  - apply select_all_length.
  - apply select_all_sorted.
  - intros H%select_all_nil. unfold listing. by rewrite H.
  - rewrite <-select_all_nil. unfold listing.
    by destruct (select_all t).
Qed.

Lemma show_data_listing_witness :
  db w_hello = Some t_hello
  ∧ show_data w_hello
    = (Ok tt,
       mkWorld (Some t_hello)
         [OutInserted (lit "Hello World"); OutEntries;
          OutRow (1, lit "Hello World", ts1)]).
Proof.
  split; [reflexivity|].
  destruct (show_data_listing w_hello t_hello eq_refl) as (-> & _).
  reflexivity.
Defined.

(** C10: in every reachable state of the store each entry satisfies
    [value_norm = normalize value] and its [value] neither begins nor ends
    with whitespace.  The entry [insert_unique] creates for a novel input
    holds the input with the whitespace at both ends removed, the rest of
    it (interior whitespace, letter case) as typed, and the normalized key
    of that text. *)
Theorem entry_columns_invariant d :
  reachable d →
  rows_ok d
  ∧ ∀ t raw now out,
      d = Some t → strip raw ≠ [] → ¬ stored t (normalize raw) →
      (∃ l r, raw = l ++ strip raw ++ r
              ∧ Forall (λ c, isspace c = true) l
              ∧ Forall (λ c, isspace c = true) r)
      ∧ insert_unique [] now (Some raw) (mkWorld d out)
        = (Ok tt,
           mkWorld
             (Some (mkTable
                      (<[next_rowid t :=
                           mkRow (strip raw) (normalize (strip raw)) now]>
                         (rows t))
                      (next_rowid t)))
             (out ++ [OutInserted (strip raw)])).
Proof.
  intros Hd%reachable_rows_ok. split; [done|].
  intros t raw now out -> Hne Hk. split.
  - destruct (strip_spec raw) as (l & r & ? & ? & ? & _). by exists l, r.
  - rewrite (insert_unique_novel _ _ _ _ t) by done. simpl.
    rewrite table_insert_ok by done. by rewrite normalize_strip.
Qed.

Lemma entry_columns_invariant_witness :
  reachable (db w_hello) ∧ rows_ok (db w_hello).
Proof.
  assert (reachable (db w_hello)) as Hr.
  { apply reach_insert; [constructor|]. apply reach_init, reach_fresh. }
  split; [done|].
  by destruct (entry_columns_invariant (db w_hello) Hr) as [Hok _].
Defined.

(** * Further properties of the code *)

(** ** The table under INSERT *)

Section Insert.

Implicit Types (w : World) (t : Table) (d : Database).

Lemma foldr_max_le (l : list Z) b :
  0 ≤ b → (∀ x, x ∈ l → x ≤ b) → foldr Z.max 0 l ≤ b.
Proof.
  intros Hb. induction l as [|x l IH]; intros Hl; simpl; [done|].
  apply Z.max_lub; [apply Hl; left|apply IH].
  intros y Hy. apply Hl. by right.
Qed.

Lemma max_rowid_le t b :
  0 ≤ b → (∀ i, is_Some (rows t !! i) → i ≤ b) → max_rowid t ≤ b.
Proof.
  intros Hb Hle. apply foldr_max_le; [done|].
  intros x ([i r] & -> & Hin%elem_of_map_to_list)%list_elem_of_fmap.
  apply Hle. simpl. eauto.
Qed.

Lemma next_rowid_above t i : is_Some (rows t !! i) → i < next_rowid t.
Proof.
  intros [r Hr]. apply max_rowid_ge in Hr. unfold next_rowid. lia.
Qed.

(** A call of [insert_unique] with no other connection at work either
    leaves the table as it is or adds one row under the next rowid. *)
Lemma insert_unique_alone_db now raw_value w t :
  db w = Some t →
  db (insert_unique [] now raw_value w).2 = Some t
  ∨ ∃ raw,
      raw_value = Some raw ∧ strip raw ≠ [] ∧ ¬ stored t (normalize raw)
      ∧ db (insert_unique [] now raw_value w).2
        = Some (mkTable
                  (<[next_rowid t :=
                       mkRow (strip raw) (normalize raw) now]> (rows t))
                  (next_rowid t)).
Proof.
  intros Hd. destruct raw_value as [raw|].
  2:{ left. by rewrite insert_unique_blank. }
  destruct (decide (strip raw = [])) as [Hb|Hb].
  { left. by rewrite insert_unique_blank. }
  destruct (decide (stored t (normalize raw))) as [Hk|Hk].
  { left. by rewrite (insert_unique_stored _ _ _ _ t). }
  right. exists raw. split_and!; [done..|].
  rewrite (insert_unique_novel _ _ _ _ t) by done.
  change (run_others (db w) []) with (db w). rewrite Hd.
  by rewrite table_insert_ok.
Qed.

Lemma stored_insert_other t i r key :
  rows t !! i = None → key ≠ value_norm r →
  stored (mkTable (<[i := r]> (rows t)) i) key ↔ stored t key.
Proof.
  intros Hi Hne. unfold stored. simpl. split.
  - intros (j & r' & Hj & Hk). rewrite lookup_insert in Hj.
    case_decide; [|by eauto]. simplify_eq.
  - intros (j & r' & Hj & Hk). exists j, r'. split; [|done].
    rewrite lookup_insert_ne; [done|]. intros ->. congruence.
Qed.

(** The listing after an INSERT: the old listing, then the new row. *)
Lemma select_all_insert t i r s :
  (∀ j, is_Some (rows t !! j) → j < i) →
  select_all (mkTable (<[i := r]> (rows t)) s)
  = select_all t ++ [(i, value r, created_at r)].
Proof.
  intros Hlt.
  assert (rows t !! i = None) as Hi.
  { destruct (rows t !! i) eqn:H; [|done].
    assert (i < i); [apply Hlt; eauto|lia]. }
  unfold select_all. simpl.
  change [(i, value r, created_at r)]
    with (map (λ kr : Z * Row, (kr.1, value kr.2, created_at kr.2)) [(i, r)]).
  rewrite <-map_app. f_equal.
  apply (StronglySorted_unique_strong id_le).
  - intros [j1 r1] [j2 r2] H1 H2 Hle1 Hle2. unfold id_le in *. simpl in *.
    assert (j1 = j2) as -> by lia. f_equal.
    rewrite merge_sort_Permutation in H1.
    apply elem_of_map_to_list in H1.
    apply elem_of_app in H2 as [H2|H2].
    + rewrite merge_sort_Permutation in H2.
      apply elem_of_map_to_list in H2.
      rewrite lookup_insert_ne in H1; [congruence|].
      intros ->. congruence.
    + apply list_elem_of_singleton in H2 as [= -> ->].
      rewrite lookup_insert_eq in H1. congruence.
  - apply StronglySorted_merge_sort; apply _.
  - apply StronglySorted_app_2.
    + intros [j1 r1] x2 H1 [= ->]%list_elem_of_singleton.
      rewrite merge_sort_Permutation in H1.
      apply elem_of_map_to_list in H1. unfold id_le. simpl.
      assert (j1 < i); [apply Hlt; eauto|lia].
    + apply StronglySorted_merge_sort; apply _.
    + repeat constructor.
  - rewrite !merge_sort_Permutation, map_to_list_insert by done.
    by rewrite Permutation_cons_append.
Qed.

End Insert.

(** ** AUTOINCREMENT *)

Section Dense.

Implicit Types (w : World) (t : Table) (d : Database).

Lemma dense_next_rowid t :
  ids_dense (Some t) → next_rowid t = Z.of_nat (row_count t) + 1.
Proof.
  intros [Hseq Hids]. unfold next_rowid. rewrite Hseq.
  assert (max_rowid t ≤ Z.of_nat (row_count t)); [|lia].
  apply max_rowid_le; [lia|]. intros i Hi. apply Hids in Hi. lia.
Qed.

Lemma table_insert_dense t t' v key ts :
  table_insert t v key ts = Ok t' → ids_dense (Some t) → ids_dense (Some t').
Proof.
  intros Hi Hd. pose proof (dense_next_rowid t Hd) as Hnext.
  pose proof (table_insert_count _ _ _ _ _ Hi) as Hcount.
  unfold table_insert in Hi. destruct (has_norm t key); [done|].
  injection Hi as <-. destruct Hd as [Hseq Hids].
  split; simpl; [unfold row_count in *; simpl in *; lia|].
  intros i. rewrite lookup_insert_is_Some, Hids.
  unfold row_count in *. simpl in *. lia.
Qed.

Lemma empty_table_dense : ids_dense (Some empty_table).
Proof.
  split; [done|]. intros i. simpl. rewrite lookup_empty.
  unfold row_count. simpl. rewrite map_size_empty.
  split; [by intros []|lia].
Qed.

Lemma run_stmt_dense d d' q :
  run_stmt d q = Ok d' → ids_dense d → ids_dense d'.
Proof.
  destruct q as [| |v key ts]; simpl.
  - by intros [= <-].
  - destruct d; intros [= <-]; [done|]. intros _. apply empty_table_dense.
  - destruct d as [t|]; [|done].
    destruct (table_insert t v key ts) as [t'|e] eqn:Hi; [|done].
    intros [= <-] Hd. by eapply table_insert_dense.
Qed.

Lemma run_others_dense qs d : ids_dense d → ids_dense (run_others d qs).
Proof.
  unfold run_others. revert d.
  induction qs as [|q qs IH]; intros d Hd; [done|]. simpl.
  apply IH. destruct (run_stmt d q) as [d'|e] eqn:Hq; [|done].
  by apply run_stmt_dense in Hq.
Qed.

Lemma init_db_dense reset w :
  ids_dense (db w) → ids_dense (db (init_db reset w).2).
Proof.
  destruct reset; [intros _; apply empty_table_dense|].
  destruct (db w) as [t|] eqn:Hd.
  - rewrite (init_db_keep _ t) by done. simpl. by rewrite Hd.
  - rewrite init_db_create by done. intros _. apply empty_table_dense.
Qed.

Lemma reachable_dense d : reachable d → ids_dense d.
Proof.
  induction 1 as [|reset w _ IH|others now raw_value w _ _ IH].
  - done.
  - by apply init_db_dense.
  - destruct (insert_unique_db others now raw_value w)
      as [-> | [-> | (raw & t' & t'' & _ & Hr & Hi & ->)]].
    + done.
    + by apply run_others_dense.
    + eapply table_insert_dense; [done|].
      rewrite <-Hr. by apply run_others_dense.
Qed.

End Dense.

(** X1: in every reachable state of the store the ids are exactly
    1, 2, ..., n for a table of n rows, [sqlite_sequence] holds n, and
    the next entry gets id n + 1. *)
Theorem ids_are_consecutive d t :
  reachable d → d = Some t →
  seq t = Z.of_nat (row_count t)
  ∧ (∀ i, is_Some (rows t !! i) ↔ 1 ≤ i ≤ Z.of_nat (row_count t))
  ∧ next_rowid t = Z.of_nat (row_count t) + 1.
Proof.
  intros Hd%reachable_dense ->. destruct Hd as [Hseq Hids].
  split_and!; [done|done|]. by apply dense_next_rowid.
Qed.

Lemma ids_are_consecutive_witness :
  reachable (db w_hello) ∧ db w_hello = Some t_hello
  ∧ next_rowid t_hello = 2.
Proof.
  assert (reachable (db w_hello)) as Hr.
  { apply reach_insert; [constructor|]. apply reach_init, reach_fresh. }
  split_and!; [done|reflexivity|].
  by destruct (ids_are_consecutive (db w_hello) t_hello Hr eq_refl)
    as (_ & _ & ->).
Defined.

(** X2: a successful [insert_unique] appends to what [show_data] lists:
    the new entry, with the stripped input and the time of the call, comes
    after all the entries that were there, whose ids are smaller. *)
Theorem insert_appends_to_listing now raw w t :
  db w = Some t → strip raw ≠ [] → ¬ stored t (normalize raw) →
  ∃ t',
    db (insert_unique [] now (Some raw) w).2 = Some t'
    ∧ select_all t' = select_all t ++ [(next_rowid t, strip raw, now)]
    ∧ Forall (λ r, row_id r < next_rowid t) (select_all t).
Proof.
  intros Hd Hne Hk.
  rewrite (insert_unique_novel _ _ _ _ t) by done.
  change (run_others (db w) []) with (db w).
  rewrite Hd, table_insert_ok by done. simpl.
  eexists. split; [done|]. split.
  - apply (select_all_insert t (next_rowid t)
             (mkRow (strip raw) (normalize raw) now)).
    apply next_rowid_above.
  - apply Forall_forall. intros [[i v] ts] Hin.
    apply select_all_elem in Hin as (r & Hr & _).
    apply next_rowid_above. eauto.
Qed.

Lemma insert_appends_to_listing_witness :
  db w_hello = Some t_hello
  ∧ ∃ t',
      db (insert_unique [] ts2 (Some (lit " second  Entry ")) w_hello).2
      = Some t'
      ∧ select_all t'
        = [(1, lit "Hello World", ts1); (2, lit "second  Entry", ts2)].
Proof.
  split; [reflexivity|].
  destruct (insert_appends_to_listing ts2 (lit " second  Entry ") w_hello
              t_hello) as (t' & Hdb & Hsel & _).
  - reflexivity.
  - discriminate.
  - apply has_norm_false. reflexivity.
  - exists t'. split; [done|]. rewrite Hsel. reflexivity.
Defined.

(** X3: [insert_unique] never changes or removes an entry that is
    stored: every row is found unchanged under its id afterwards, the row
    count grows by at most one, and whether a key other than the input's
    is stored is not affected. *)
Theorem insert_keeps_entries now raw_value w t :
  db w = Some t →
  ∃ t',
    db (insert_unique [] now raw_value w).2 = Some t'
    ∧ (∀ i r, rows t !! i = Some r → rows t' !! i = Some r)
    ∧ (row_count t ≤ row_count t' ≤ S (row_count t))%nat
    ∧ ∀ key,
        (∀ raw, raw_value = Some raw → key ≠ normalize raw) →
        (stored t' key ↔ stored t key).
Proof.
  intros Hd.
  destruct (insert_unique_alone_db now raw_value w t Hd)
    as [-> | (raw & -> & Hne & Hk & ->)].
  { exists t. split_and!; [done|done|lia|lia|]. by intros key _. }
  eexists. split; [done|].
  pose proof (next_rowid_fresh t) as Hfresh.
  split; [|split].
  - intros i r Hr. simpl. rewrite lookup_insert_ne; [done|].
    intros <-. congruence.
  - unfold row_count. simpl. rewrite map_size_insert_None by done. lia.
  - intros key Hkey. apply stored_insert_other; [done|]. simpl. by apply Hkey.
Qed.

Lemma insert_keeps_entries_witness :
  db w_hello = Some t_hello
  ∧ ∃ t',
      db (insert_unique [] ts2 (Some (lit "other")) w_hello).2 = Some t'
      ∧ rows t' !! 1 = Some (mkRow (lit "Hello World") (lit "hello world") ts1).
Proof.
  split; [reflexivity|].
  destruct (insert_keeps_entries ts2 (Some (lit "other")) w_hello t_hello
              eq_refl) as (t' & Hdb & Hrows & _).
  exists t'. split; [done|]. apply Hrows. reflexivity.
Defined.

(** ** Errors *)

(** X4: when the table is missing, a blank input is still reported as a
    false positive without the database being consulted; any other input
    makes [classify] and [insert_unique] raise [OperationalError], and
    [show_data] raises it too.  Nothing is printed and nothing changes
    when the error is raised. *)
Theorem missing_table_errors others now raw_value w :
  db w = None →
  (blank raw_value →
   classify raw_value w = (Ok FalsePositive, w)
   ∧ insert_unique others now raw_value w = (Ok tt, printed w OutFalsePositive))
  ∧ (¬ blank raw_value →
     classify raw_value w = (Raise OperationalError, w)
     ∧ insert_unique others now raw_value w = (Raise OperationalError, w))
  ∧ show_data w = (Raise OperationalError, w).
Proof.
  intros Hd. split_and!.
  - intros Hb. split; [by apply classify_blank|by apply insert_unique_blank].
  - destruct raw_value as [raw|]; [|by intros []]. simpl. intros Hne.
    split; [by apply classify_no_table|by apply insert_unique_no_table].
  - unfold show_data, bind, query. by rewrite Hd.
Qed.

Lemma missing_table_errors_witness :
  db fresh = None
  ∧ insert_unique [] ts1 (Some (lit "Hello World")) fresh
    = (Raise OperationalError, fresh)
  ∧ insert_unique [] ts1 (Some (lit "  ")) fresh
    = (Ok tt, printed fresh OutFalsePositive).
Proof.
  destruct (missing_table_errors [] ts1 (Some (lit "Hello World")) fresh
              eq_refl) as (_ & Herr & _).
  destruct (missing_table_errors [] ts1 (Some (lit "  ")) fresh
              eq_refl) as (Hblank & _ & _).
  split_and!; [reflexivity| |].
  - apply Herr. discriminate.
  - apply Hblank. reflexivity.
Defined.

(** X5: [insert_unique] recovers from the uniqueness violation only.
    When another connection drops the table between the existence check
    and the INSERT, the INSERT raises [OperationalError], which is not
    caught: [insert_unique] raises it and prints nothing. *)
Theorem dropped_table_is_not_caught others now raw w t :
  db w = Some t → strip raw ≠ [] → ¬ stored t (normalize raw) →
  run_others (db w) others = None →
  insert_unique others now (Some raw) w
  = (Raise OperationalError, mkWorld None (stdout w)).
Proof.
  intros Hd Hne Hk Hr.
  rewrite (insert_unique_novel _ _ _ _ t) by done. by rewrite Hr.
Qed.

Lemma dropped_table_is_not_caught_witness :
  run_others (db w_hello) [SqlDropIfExists] = None
  ∧ insert_unique [SqlDropIfExists] ts2 (Some (lit "other")) w_hello
    = (Raise OperationalError, mkWorld None (stdout w_hello)).
Proof.
  split; [reflexivity|].
  apply (dropped_table_is_not_caught [SqlDropIfExists] ts2 (lit "other")
           w_hello t_hello).
  - reflexivity.
  - discriminate.
  - apply has_norm_false. reflexivity.
  - reflexivity.
Defined.

(** ** Start-up *)

(** X6: [init_db] always returns normally and prints nothing.  With
    reset it leaves the empty table; without, it keeps the table that is
    there and creates the empty one only when there is none.  Calling it
    again without reset changes nothing, and a reset after it gives what a
    reset alone gives. *)
Theorem init_db_behaviour reset w :
  init_db reset w
  = (Ok tt,
     mkWorld (Some (if reset then empty_table
                    else default empty_table (db w)))
       (stdout w))
  ∧ init_db false (init_db reset w).2 = (Ok tt, (init_db reset w).2)
  ∧ init_db true (init_db reset w).2 = init_db true w.
Proof.
  destruct w as [[t|] out]; destruct reset; done.
Qed.

(** ** What one call of [insert_unique] does *)

(** X7: on a table, [insert_unique] prints exactly one line, the one
    that belongs to the class [classify] gives the input, and it adds a
    row exactly when that class is [Unique]. *)
Theorem insert_follows_classify now raw_value w t :
  db w = Some t →
  ∃ cls t',
    (classify raw_value w).1 = Ok cls
    ∧ insert_unique [] now raw_value w
      = (Ok tt, mkWorld (Some t') (stdout w ++ [notice cls raw_value]))
    ∧ (cls = Unique → row_count t' = S (row_count t))
    ∧ (cls ≠ Unique → t' = t).
Proof.
  intros Hd.
  assert (blank raw_value ∨ ∃ raw, raw_value = Some raw ∧ strip raw ≠ [])
    as [Hb | (raw & -> & Hb)].
  { destruct raw_value as [raw|]; [|by left]. simpl.
    destruct (decide (strip raw = [])); eauto. }
  { exists FalsePositive, t.
    rewrite classify_blank, insert_unique_blank by done.
    unfold printed. rewrite Hd. done. }
  rewrite (classify_table _ _ t) by done.
  destruct (has_norm t (normalize raw)) eqn:Hk.
  - apply has_norm_true in Hk. exists Redundant, t.
    rewrite (insert_unique_stored _ _ _ _ t) by done.
    unfold printed. rewrite Hd. done.
  - apply has_norm_false in Hk. exists Unique. eexists.
    rewrite (insert_unique_novel _ _ _ _ t) by done.
    change (run_others (db w) []) with (db w).
    rewrite Hd, table_insert_ok by done. simpl.
    split_and!; [done|done| |done].
    intros _. unfold row_count. simpl.
    apply map_size_insert_None, next_rowid_fresh.
Qed.

Lemma insert_follows_classify_witness :
  db w_hello = Some t_hello
  ∧ ∃ t',
      insert_unique [] ts2 (Some (lit "hello WORLD")) w_hello
      = (Ok tt,
         mkWorld (Some t')
           (stdout w_hello ++ [OutRedundant (Some (lit "hello WORLD"))])).
Proof.
  split; [reflexivity|].
  destruct (insert_follows_classify ts2 (Some (lit "hello WORLD")) w_hello
              t_hello eq_refl) as (cls & t' & Hcls & Hins & _).
  exists t'. rewrite Hins.
  assert (cls = Redundant) as -> by (vm_compute in Hcls; congruence).
  reflexivity.
Defined.

(** ** Whole sessions *)

Section Sessions.

Implicit Types (w : World) (t : Table) (i : Input) (rest : list Input).

Lemma main_unfold reset inputs w :
  main reset inputs w =
  match init_db reset w with
  | (Ok _, w1) =>
      match repl inputs (printed (printed w1 OutBanner) OutUsage) with
      | (Ok _, w2) => (Ok tt, w2)
      | (Raise e, w2) => (Raise e, w2)
      end
  | (Raise e, w1) => (Raise e, w1)
  end.
Proof.
  change (main reset inputs w) with
    (bind (init_db reset)
       (λ _, bind (print OutBanner)
               (λ _, bind (print OutUsage)
                       (λ _, bind (repl inputs) (λ _, close)))) w).
  unfold bind at 1. by destruct (init_db reset w) as [[[]|e] w1].
Qed.

Lemma not_keyword i :
  is_exit i = false →
  str_eqb (command i) (lit "show") = false →
  str_eqb (command i) (lit "reset") = false →
  command i ∉ keywords.
Proof.
  unfold is_exit, str_eqb, keywords.
  intros H1%bool_decide_eq_false H2%bool_decide_eq_false
         H3%bool_decide_eq_false.
  rewrite !elem_of_cons, elem_of_nil. tauto.
Qed.

(** An invariant of the table that holds of the empty table and that
    inserting a line which is not a keyword keeps, holds throughout the
    loop. *)
Lemma repl_preserves (I : Database → Prop) :
  I (Some empty_table) →
  (∀ i w, is_Some (db w) → I (db w) → command i ∉ keywords →
          I (db (insert_unique [] (utc i) (Some (strip (line i))) w).2)) →
  ∀ inputs w,
    is_Some (db w) → I (db w) →
    is_Some (db (repl inputs w).2) ∧ I (db (repl inputs w).2).
Proof.
  intros Hempty Hins inputs.
  induction inputs as [|i rest IH]; intros w [t Hd] HI.
  { simpl. rewrite Hd in HI |- *. eauto. }
  rewrite repl_cons. cbv zeta.
  destruct (is_exit i) eqn:Hexit.
  { simpl. rewrite Hd in HI |- *. eauto. }
  destruct (str_eqb (command i) (lit "show")) eqn:Hshow.
  { unfold bind. rewrite (show_data_table _ t) by done.
    apply IH; simpl; rewrite Hd in HI |- *; eauto. }
  destruct (str_eqb (command i) (lit "reset")) eqn:Hreset.
  { unfold bind. rewrite init_db_reset. unfold print at 1. simpl.
    rewrite (show_data_table _ empty_table) by done.
    apply IH; simpl; eauto. }
  pose proof (not_keyword i Hexit Hshow Hreset) as Hkw.
  assert (is_Some (db (printed w OutPrompt))) as Hsome.
  { simpl. rewrite Hd. eauto. }
  specialize (Hins i (printed w OutPrompt) Hsome HI Hkw).
  destruct (insert_unique_alone (utc i) (Some (strip (line i)))
              (printed w OutPrompt) t Hd) as (t' & out & Heq).
  unfold bind. rewrite Heq in Hins |- *. simpl in Hins.
  rewrite (show_data_table _ t') by done.
  apply IH; simpl; eauto.
Qed.

Lemma main_preserves (I : Database → Prop) :
  I (Some empty_table) →
  (∀ i w, is_Some (db w) → I (db w) → command i ∉ keywords →
          I (db (insert_unique [] (utc i) (Some (strip (line i))) w).2)) →
  ∀ reset inputs w,
    I (db w) →
    is_Some (db (main reset inputs w).2) ∧ I (db (main reset inputs w).2).
Proof.
  intros Hempty Hins reset inputs w HI. rewrite main_unfold.
  assert (∃ t, init_db reset w = (Ok tt, mkWorld (Some t) (stdout w))
               ∧ I (Some t)) as (t & -> & Ht).
  { destruct w as [[t|] out]; destruct reset; simpl in *; eauto. }
  set (w' := printed _ _).
  destruct (repl_preserves I Hempty Hins inputs w') as [Hsome HI'].
  { simpl. eauto. }
  { done. }
  by destruct (repl inputs w') as [[[]|e] w2].
Qed.

Lemma repl_after_exit pre i rest w :
  is_exit i = true → repl (pre ++ i :: rest) w = repl (pre ++ [i]) w.
Proof.
  intros Hexit. revert w. induction pre as [|j pre IH]; intros w.
  { simpl app. rewrite !repl_cons. cbv zeta. by rewrite Hexit. }
  rewrite <-!app_comm_cons, !repl_cons. cbv zeta.
  destruct (is_exit j); [done|].
  destruct (str_eqb (command j) (lit "show")).
  { unfold bind. by destruct (show_data _) as [[[]|e] w1]. }
  destruct (str_eqb (command j) (lit "reset")).
  { unfold bind. destruct (init_db true _) as [[[]|e] w1]; [|done].
    destruct (print OutResetDone w1) as [[[]|e] w2]; [|done].
    by destruct (show_data w2) as [[[]|e] w3]. }
  unfold bind. destruct (insert_unique _ _ _ _) as [[[]|e] w1]; [|done].
  by destruct (show_data w1) as [[[]|e] w2].
Qed.

End Sessions.

(** X8: whatever follows the [exit] command on standard input is never
    read: a session gives the same result, database and output as the
    session cut off after its first [exit] line. *)
Theorem input_after_exit_is_ignored reset pre i rest w :
  is_exit i = true →
  main reset (pre ++ i :: rest) w = main reset (pre ++ [i]) w.
Proof.
  intros Hexit. rewrite !main_unfold.
  destruct (init_db reset w) as [[[]|e] w1]; [|done].
  by rewrite repl_after_exit.
Qed.

Lemma input_after_exit_is_ignored_witness :
  is_exit (mkInput (lit "  EXIT ") ts2) = true
  ∧ main false (session_exit ++ session_eof) fresh
    = main false session_exit fresh.
Proof.
  split; [reflexivity|].
  apply (input_after_exit_is_ignored false
           [mkInput (lit "Hello World") ts1] (mkInput (lit "  EXIT ") ts2)
           session_eof fresh).
  reflexivity.
Defined.

(** X9: a session takes a reachable state of the store to a reachable
    state, whatever is typed and however the session ends, and the table
    exists when it ends.  So what holds in every reachable state holds of
    the database file after every run. *)
Theorem session_stays_reachable reset inputs w :
  reachable (db w) →
  is_Some (db (main reset inputs w).2)
  ∧ reachable (db (main reset inputs w).2).
Proof.
  apply (main_preserves reachable).
  - apply (reach_init true fresh), reach_fresh.
  - intros i w' _ Hr _. by apply reach_insert.
Qed.

Lemma session_stays_reachable_witness :
  reachable (db fresh)
  ∧ reachable (db (main false session_eof fresh).2).
Proof.
  assert (reachable (db fresh)) as Hr by apply reach_fresh.
  split; [done|].
  by destruct (session_stays_reachable false session_eof fresh Hr).
Defined.

(** X10: the session loop stores data only: when no stored value is
    empty or a command keyword (in any letter case) before a session,
    none is afterwards.  A line that reads [exit], [show] or [reset] is
    always taken as the command, never as a value. *)
Theorem session_stores_only_data reset inputs w :
  only_data (db w) → only_data (db (main reset inputs w).2).
Proof.
  intros Hw. apply (main_preserves only_data); [| |done].
  - intros i r. simpl. by rewrite lookup_empty.
  - intros i w' [t Hd] Hok Hkw.
    destruct (insert_unique_alone_db (utc i) (Some (strip (line i))) w' t Hd)
      as [-> | (raw & [= <-] & Hne & _ & ->)].
    { by rewrite <-Hd. }
    rewrite Hd in Hok. intros j r. simpl. rewrite lookup_insert.
    case_decide; [|by apply Hok].
    intros [= <-]. simpl. rewrite strip_idem in Hne |- *. done.
Qed.

Lemma session_stores_only_data_witness :
  only_data (db fresh)
  ∧ only_data
      (db (main true
             [mkInput (lit "Show") ts1; mkInput (lit "showing") ts2] fresh).2).
Proof.
  assert (only_data (db fresh)) as H by exact I.
  split; [done|].
  by apply (session_stores_only_data true
              [mkInput (lit "Show") ts1; mkInput (lit "showing") ts2] fresh).
Defined.

(** ** The shape of a key *)

Section Keys.

Implicit Types (c : ascii) (s w : str) (ws : list str).

Lemma split_leading_space l s :
  Forall (λ c, isspace c = true) l → split (l ++ s) = split s.
Proof.
  induction 1 as [|c l Hc _ IH]; [done|].
  rewrite <-app_comm_cons, split_space by done. apply IH.
Qed.

Lemma starts_word_snoc s c :
  isspace c = true → starts_word (s ++ [c]) = starts_word s.
Proof. intros Hc. destruct s; [|done]. simpl. by rewrite Hc. Qed.

Lemma split_snoc_space s c : isspace c = true → split (s ++ [c]) = split s.
Proof.
  intros Hc. induction s as [|a s IH]; [simpl; by rewrite Hc|].
  rewrite <-app_comm_cons. simpl.
  by rewrite starts_word_snoc, IH.
Qed.

Lemma split_trailing_space s r :
  Forall (λ c, isspace c = true) r → split (s ++ r) = split s.
Proof.
  revert s. induction r as [|c r IH]; intros s Hr; [by rewrite app_nil_r|].
  inversion_clear Hr as [|? ? Hc Hr'].
  rewrite cons_middle, (assoc_L (++) s [c] r), IH by done.
  by apply split_snoc_space.
Qed.

Lemma join_starts_word w ws :
  is_word w → starts_word (join (lit " ") (w :: ws)) = true.
Proof.
  intros [Hne Hw]. destruct w as [|c w]; [done|].
  inversion_clear Hw as [|? ? Hc _].
  destruct ws; simpl; by rewrite Hc.
Qed.

Lemma single_spaced_word w s :
  Forall (λ c, isspace c = false) w →
  single_spaced (w ++ s) = single_spaced s.
Proof.
  induction 1 as [|c w Hc _ IH]; [done|]. simpl. by rewrite Hc.
Qed.

Lemma single_spaced_join ws :
  Forall is_word ws → single_spaced (join (lit " ") ws) = true.
Proof.
  induction 1 as [|w ws Hw Hws IH]; [done|].
  destruct ws as [|w' ws].
  - simpl. rewrite <-(app_nil_r w). by rewrite single_spaced_word by apply Hw.
  - change (join (lit " ") (w :: w' :: ws))
      with (w ++ " "%char :: join (lit " ") (w' :: ws)).
    rewrite single_spaced_word by apply Hw.
    inversion_clear Hws as [|? ? Hw' _].
    change (single_spaced (" "%char :: ?x))
      with (starts_word x && single_spaced x).
    by rewrite join_starts_word, IH.
Qed.

Lemma join_not_starts_space ws :
  Forall is_word ws → starts_with isspace (join (lit " ") ws) = false.
Proof.
  destruct 1 as [|w ws Hw _]; [done|].
  pose proof (join_starts_word w ws Hw) as H.
  destruct (join _ (w :: ws)) as [|c x]; [done|].
  simpl in *. by apply negb_true_iff.
Qed.

(** A normalized string is made of its own words. *)
Lemma normalize_join_split s :
  normalize s = join (lit " ") (split (normalize s)).
Proof.
  unfold normalize at 2.
  rewrite split_lower, split_join by apply split_words.
  unfold normalize. apply join_lower.
Qed.

Lemma join_split_single_spaced s :
  single_spaced s = true →
  join (lit " ") (split s) = lstrip_by isspace s.
Proof.
  induction s as [|c s IH]; [done|].
  change (single_spaced (c :: s))
    with ((if isspace c then bool_decide (c = " "%char) && starts_word s
           else true) && single_spaced s).
  intros [Hc Hs]%andb_true_iff. specialize (IH Hs).
  change (lstrip_by isspace (c :: s))
    with (if isspace c then lstrip_by isspace s else c :: s).
  destruct (isspace c) eqn:Hsp; [by rewrite split_space|].
  rewrite split_nonspace by done.
  destruct (starts_word s) eqn:Hw.
  - destruct (starts_word_split s Hw) as (w & ws & Hsplit).
    rewrite Hsplit in IH |- *. rewrite join_glue, IH.
    destruct s as [|c' s]; [done|]. simpl in Hw |- *.
    apply negb_true_iff in Hw. by rewrite Hw.
  - rewrite join_cons_word, IH by apply split_words.
    destruct s as [|c' s]; [done|].
    simpl in Hw, Hs |- *. apply negb_false_iff in Hw.
    rewrite Hw in Hs |- *.
    apply andb_true_iff in Hs as [Hs _].
    apply andb_true_iff in Hs as [->%bool_decide_eq_true Hw'].
    destruct s as [|c'' s]; [done|]. simpl in Hw' |- *.
    apply negb_true_iff in Hw'. by rewrite Hw'.
Qed.

Lemma normalize_canonical s : canonical (normalize s) = true.
Proof.
  unfold canonical. apply andb_true_iff. split; [apply andb_true_iff; split|].
  - rewrite normalize_join_split.
    by rewrite join_not_starts_space by apply split_words.
  - rewrite normalize_join_split. apply single_spaced_join, split_words.
  - apply bool_decide_eq_true. unfold normalize. apply lower_idem.
Qed.

Lemma canonical_fixed s : canonical s = true → normalize s = s.
Proof.
  unfold canonical.
  intros [[Hst Hsp]%andb_true_iff Hlow%bool_decide_eq_true]%andb_true_iff.
  unfold normalize. rewrite join_split_single_spaced by done.
  apply negb_true_iff in Hst. by rewrite lstrip_by_id.
Qed.

End Keys.

(** X11: whitespace around the input does not change its key: for
    whitespace-only [l] and [r], [normalize (l ++ s ++ r)] is
    [normalize s], and so is [normalize (strip s)], the key [classify]
    computes.  The key is empty exactly when the input is blank, which is
    the test [classify] makes on the stripped input. *)
Theorem key_ignores_surrounding_whitespace l s r :
  Forall (λ c, isspace c = true) l → Forall (λ c, isspace c = true) r →
  normalize (l ++ s ++ r) = normalize s
  ∧ normalize (strip s) = normalize s
  ∧ (normalize s = [] ↔ strip s = []).
Proof.
  intros Hl Hr. split_and!.
  - unfold normalize.
    by rewrite split_leading_space, split_trailing_space.
  - apply normalize_strip.
  - apply normalize_nil_iff.
Qed.

Lemma key_ignores_surrounding_whitespace_witness :
  Forall (λ c, isspace c = true) ["009"%char; " "%char]
  ∧ Forall (λ c, isspace c = true) ["010"%char]
  ∧ normalize (["009"%char; " "%char] ++ lit "Hello World" ++ ["010"%char])
    = normalize (lit "Hello World").
Proof.
  assert (Forall (λ c, isspace c = true) ["009"%char; " "%char]) as Hl.
  { by repeat constructor. }
  assert (Forall (λ c, isspace c = true) ["010"%char]) as Hr.
  { by repeat constructor. }
  split_and!; [done|done|].
  by destruct (key_ignores_surrounding_whitespace _ (lit "Hello World") _
                 Hl Hr) as [-> _].
Defined.

(** X12: the keys are exactly the strings of lowercase words separated
    by single spaces: every [normalize s] has that shape, and [normalize]
    leaves a string unchanged if and only if the string has it. *)
Theorem keys_are_canonical s :
  canonical (normalize s) = true
  ∧ (canonical s = true ↔ normalize s = s).
Proof.
  split; [apply normalize_canonical|]. split.
  - apply canonical_fixed.
  - intros <-. apply normalize_canonical.
Qed.

Lemma keys_are_canonical_witness :
  canonical (lit "hello world") = true
  ∧ normalize (lit "hello world") = lit "hello world".
Proof.
  split; [reflexivity|].
  by apply (keys_are_canonical (lit "hello world")).
Defined.

(** ** The loop, line by line *)

Section Lines.

Implicit Types (w : World) (t : Table) (i : Input) (rest : list Input).

Lemma keyword_tests i :
  command i ∉ keywords →
  is_exit i = false
  ∧ str_eqb (command i) (lit "show") = false
  ∧ str_eqb (command i) (lit "reset") = false.
Proof.
  unfold keywords, is_exit, str_eqb.
  rewrite !elem_of_cons, elem_of_nil. intros H.
  split_and!; apply bool_decide_eq_false; tauto.
Qed.

Lemma repl_data i rest w :
  command i ∉ keywords →
  repl (i :: rest) w
  = bind (insert_unique [] (utc i) (Some (strip (line i))))
      (λ _, bind show_data (λ _, repl rest)) (printed w OutPrompt).
Proof.
  intros (H1 & H2 & H3)%keyword_tests. rewrite repl_cons. cbv zeta.
  by rewrite H1, H2, H3.
Qed.

Lemma stored_insert t (j : Z) r key s :
  rows t !! j = None →
  stored (mkTable (<[j := r]> (rows t)) s) key
  ↔ key = value_norm r ∨ stored t key.
Proof.
  intros Hj. unfold stored. simpl. split.
  - intros (j' & r' & Hj' & Hk). rewrite lookup_insert in Hj'.
    case_decide; simplify_eq; eauto.
  - intros [-> | (j' & r' & Hj' & Hk)].
    + exists j, r. by rewrite lookup_insert_eq.
    + exists j', r'. split; [|done].
      rewrite lookup_insert_ne; [done|]. intros ->. congruence.
Qed.

Lemma repl_keys inputs w t keys :
  db w = Some t →
  (∀ k, stored t k ↔ k ∈ keys) →
  ∀ k, holds_key (db (repl inputs w).2) k ↔ k ∈ keys_after inputs keys.
Proof.
  revert w t keys.
  induction inputs as [|i rest IH]; intros w t keys Hd Hkeys k.
  { simpl. rewrite Hd. apply Hkeys. }
  rewrite repl_cons. cbv zeta.
  change (keys_after (i :: rest) keys) with
    (if is_exit i then keys
     else if str_eqb (command i) (lit "show") then keys_after rest keys
     else if str_eqb (command i) (lit "reset") then keys_after rest []
     else if str_eqb (strip (line i)) [] then keys_after rest keys
     else keys_after rest (normalize (line i) :: keys)).
  destruct (is_exit i).
  { simpl. rewrite Hd. apply Hkeys. }
  destruct (str_eqb (command i) (lit "show")).
  { unfold bind. rewrite (show_data_table _ t) by done.
    apply (IH _ t); [by simpl|done]. }
  destruct (str_eqb (command i) (lit "reset")).
  { unfold bind. rewrite init_db_reset. unfold print at 1. simpl.
    rewrite (show_data_table _ empty_table) by done.
    apply (IH _ empty_table); [done|].
    intros k'. rewrite elem_of_nil. split; [|done].
    intros (j & r & Hj & _). simpl in Hj. by rewrite lookup_empty in Hj. }
  unfold bind at 1. unfold str_eqb. case_bool_decide as Hb.
  { rewrite insert_unique_blank by (simpl; by rewrite strip_idem).
    unfold bind. rewrite (show_data_table _ t) by done.
    apply (IH _ t); [by simpl|done]. }
  assert (strip (strip (line i)) ≠ []) as Hb' by by rewrite strip_idem.
  destruct (decide (stored t (normalize (line i)))) as [Hk|Hk].
  { rewrite (insert_unique_stored _ _ _ _ t);
      [|done..|by rewrite normalize_strip].
    unfold bind. rewrite (show_data_table _ t) by done.
    apply (IH _ t); [by simpl|].
    intros k'. rewrite elem_of_cons, <-Hkeys. split; [by right|].
    by intros [->|?]. }
  rewrite (insert_unique_novel _ _ _ _ t);
    [|done..|by rewrite normalize_strip].
  change (run_others (db (printed w OutPrompt)) []) with (db w).
  rewrite Hd, normalize_strip, table_insert_ok by done. simpl.
  unfold bind. erewrite show_data_table by done.
  eapply IH; [done|].
  intros k'. rewrite stored_insert by apply next_rowid_fresh.
  simpl. by rewrite elem_of_cons, Hkeys.
Qed.

End Lines.

(** X13: a line that is not a keyword is handed to [insert_unique]; the
    loop prints the prompt, the notice for the line's class and the whole
    table, and goes on with the next line.  The table is the same unless
    the class is [Unique], in which case the listing has the new entry at
    its end. *)
Theorem data_line_step i rest w t :
  db w = Some t → command i ∉ keywords →
  ∃ cls t',
    (classify (Some (strip (line i))) (printed w OutPrompt)).1 = Ok cls
    ∧ repl (i :: rest) w
      = repl rest
          (mkWorld (Some t')
             (stdout w ++ (OutPrompt :: notice cls (Some (strip (line i)))
                           :: listing t')))
    ∧ (cls ≠ Unique → t' = t)
    ∧ (cls = Unique →
       select_all t'
       = select_all t ++ [(next_rowid t, strip (line i), utc i)]).
Proof.
  intros Hd Hkw. rewrite repl_data by done. unfold bind at 1.
  set (raw := strip (line i)). set (w1 := printed w OutPrompt).
  assert (strip raw = raw) as Hraw by apply strip_idem.
  destruct (decide (raw = [])) as [Hb|Hb].
  { exists FalsePositive, t.
    rewrite classify_blank, insert_unique_blank by (simpl; congruence).
    unfold bind. rewrite (show_data_table _ t) by done. simpl.
    rewrite Hd, <-!app_assoc. done. }
  rewrite (classify_table _ _ t) by (done || congruence).
  destruct (has_norm t (normalize raw)) eqn:Hk.
  - apply has_norm_true in Hk. exists Redundant, t.
    rewrite (insert_unique_stored _ _ _ _ t) by (done || congruence).
    unfold bind. rewrite (show_data_table _ t) by done. simpl.
    rewrite Hd, <-!app_assoc. done.
  - apply has_norm_false in Hk. exists Unique. eexists.
    rewrite (insert_unique_novel _ _ _ _ t) by (done || congruence).
    change (run_others (db w1) []) with (db w).
    rewrite Hd, table_insert_ok by done. simpl.
    unfold bind. erewrite show_data_table by done. simpl.
    rewrite Hraw, <-!app_assoc. split_and!; [done|done|done|].
    intros _.
    apply (select_all_insert t (next_rowid t)
             (mkRow raw (normalize raw) (utc i))).
    apply next_rowid_above.
Qed.

Lemma data_line_step_witness :
  db w_hello = Some t_hello
  ∧ (command (mkInput (lit " HELLO  world") ts2) ∉ keywords)
  ∧ repl [mkInput (lit " HELLO  world") ts2] w_hello
    = repl []
        (mkWorld (Some t_hello)
           (stdout w_hello
            ++ [OutPrompt; OutRedundant (Some (lit "HELLO  world"));
                OutEntries; OutRow (1, lit "Hello World", ts1)])).
Proof.
  assert (command (mkInput (lit " HELLO  world") ts2) ∉ keywords) as Hkw.
  { apply not_keyword; reflexivity. }
  split_and!; [reflexivity|done|].
  destruct (data_line_step (mkInput (lit " HELLO  world") ts2) [] w_hello
              t_hello eq_refl Hkw) as (cls & t' & Hcls & -> & Hsame & _).
  assert (cls = Redundant) as -> by (vm_compute in Hcls; congruence).
  rewrite Hsame by done. reflexivity.
Defined.

(** X14: a session acts on the stored keys as on a set: when the table
    holds exactly the keys of [keys] before the run, it holds afterwards
    exactly those of [keys_after], the list that starts empty after a
    reset (the flag or the command), gains the key of every data line that
    is not blank, and takes no line after [exit] into account. *)
Theorem session_keys reset inputs w keys :
  (∀ k, holds_key (db w) k ↔ k ∈ keys) →
  ∀ k, holds_key (db (main reset inputs w).2) k
       ↔ k ∈ keys_after inputs (if reset then [] else keys).
Proof.
  intros Hkeys k. rewrite main_unfold.
  assert (∃ t, init_db reset w = (Ok tt, mkWorld (Some t) (stdout w))
               ∧ ∀ k, stored t k ↔ k ∈ (if reset then [] else keys))
    as (t & -> & Ht).
  { assert (∀ k, stored empty_table k ↔ k ∈ @nil str) as Hempty.
    { intros k'. rewrite elem_of_nil. split; [|done].
      intros (j & r & Hj & _). simpl in Hj. by rewrite lookup_empty in Hj. }
    destruct w as [[t|] out]; destruct reset; simpl in *; eauto.
    exists empty_table. split; [done|]. intros k'.
    rewrite Hempty, elem_of_nil. apply Hkeys. }
  set (w' := printed _ _).
  rewrite <-(repl_keys inputs w' t); [|done|done].
  by destruct (repl inputs w') as [[[]|e] w2].
Qed.

Lemma session_keys_witness :
  (∀ k, holds_key (db fresh) k ↔ k ∈ @nil str)
  ∧ (holds_key (db (main false session_exit fresh).2) (lit "hello world")
     ↔ lit "hello world" ∈ [lit "hello world"]).
Proof.
  assert (∀ k, holds_key (db fresh) k ↔ k ∈ @nil str) as H.
  { intros k. rewrite elem_of_nil. done. }
  split; [done|].
  apply (session_keys false session_exit fresh [] H (lit "hello world")).
Defined.

(** ** Reading a command *)

Section Commands.

Implicit Types (c : ascii) (s l r : str) (p : ascii → bool).

Lemma lstrip_by_app p s r :
  lstrip_by p (s ++ r) =
  match lstrip_by p s with
  | [] => lstrip_by p r
  | x => x ++ r
  end.
Proof.
  induction s as [|c s IH]; [done|]. simpl. by destruct (p c).
Qed.

Lemma lstrip_by_all p l : Forall (λ c, p c = true) l → lstrip_by p l = [].
Proof. induction 1 as [|c l Hc _ IH]; [done|]. simpl. by rewrite Hc. Qed.

Lemma rstrip_by_app_all p s r :
  Forall (λ c, p c = true) r → rstrip_by p (s ++ r) = rstrip_by p s.
Proof.
  intros Hr. rewrite !rstrip_by_reverse, reverse_app, lstrip_by_app.
  rewrite lstrip_by_all by by apply Forall_reverse.
  by destruct (lstrip_by p (reverse s)).
Qed.

Lemma rstrip_by_all p r : Forall (λ c, p c = true) r → rstrip_by p r = [].
Proof.
  intros Hr. rewrite <-(app_nil_l r). by rewrite rstrip_by_app_all.
Qed.

Lemma strip_padding l s r :
  Forall (λ c, isspace c = true) l → Forall (λ c, isspace c = true) r →
  strip (l ++ s ++ r) = strip s.
Proof.
  intros Hl Hr. unfold strip, strip_by.
  rewrite lstrip_by_app, lstrip_by_all by done.
  rewrite lstrip_by_app.
  destruct (lstrip_by isspace s) as [|c x] eqn:Hs.
  - rewrite lstrip_by_all by done. done.
  - by apply rstrip_by_app_all.
Qed.

Lemma lstrip_lower s :
  lstrip_by isspace (lower s) = lower (lstrip_by isspace s).
Proof.
  induction s as [|c s IH]; [done|]. simpl.
  rewrite isspace_lower_char. by destruct (isspace c).
Qed.

Lemma rstrip_lower s :
  rstrip_by isspace (lower s) = lower (rstrip_by isspace s).
Proof.
  induction s as [|c s IH]; [done|]. simpl.
  change (map lower_char s) with (lower s). rewrite IH, isspace_lower_char.
  destruct (rstrip_by isspace s); simpl; [|done].
  by destruct (isspace c).
Qed.

Lemma strip_lower s : strip (lower s) = lower (strip s).
Proof. unfold strip, strip_by. by rewrite lstrip_lower, rstrip_lower. Qed.

End Commands.

(** X15: the loop reads a command without regard to letter case or to
    whitespace around it: padding a line with whitespace at either end, or
    lowercasing it, gives the same command, so the same branch of the loop
    is taken. *)
Theorem command_ignores_case_and_padding l s r ts ts' :
  Forall (λ c, isspace c = true) l → Forall (λ c, isspace c = true) r →
  command (mkInput (l ++ s ++ r) ts) = command (mkInput s ts')
  ∧ command (mkInput (lower s) ts) = command (mkInput s ts')
  ∧ is_exit (mkInput (l ++ s ++ r) ts) = is_exit (mkInput s ts').
Proof.
  intros Hl Hr. unfold is_exit, command. simpl.
  rewrite strip_padding by done. split_and!; [done| |done].
  by rewrite strip_lower, lower_idem.
Qed.

Lemma command_ignores_case_and_padding_witness :
  Forall (λ c, isspace c = true) ["009"%char]
  ∧ Forall (λ c, isspace c = true) [" "%char; " "%char]
  ∧ command (mkInput (["009"%char] ++ lit "ReSet" ++ [" "%char; " "%char]) ts1)
    = lit "reset".
Proof.
  assert (Forall (λ c, isspace c = true) ["009"%char]) as Hl.
  { by repeat constructor. }
  assert (Forall (λ c, isspace c = true) [" "%char; " "%char]) as Hr.
  { by repeat constructor. }
  split_and!; [done|done|].
  destruct (command_ignores_case_and_padding _ (lit "ReSet") _ ts1 ts1 Hl Hr)
    as (-> & _). reflexivity.
Defined.
